(** * Pixel Runner: the simulation core of [src/App.tsx]

    The game keeps three pieces of React state ([gameState], [player],
    [obstacles]) and three refs ([lastObstacleRef], [groundOffsetRef],
    [animationFrameRef]).  Every callback of the component that touches
    them ([jump], [checkCollision], [generateObstacle], [gameLoop], the
    collision effect and [startGame]) is embedded below as a function on
    that state.

    Numbers.  A JavaScript [number] is an IEEE 754 binary64 value, and the
    model uses Rocq's primitive binary64 floats for every coordinate,
    velocity, speed and clock value, so that [+], [-], [*], [<], [>=] below
    are the very operations the program runs (round to nearest even,
    comparisons false on NaN).  The two tick counters, [score] and
    [animFrame], start at 0 and only ever grow by 1; they are modelled as
    [Z], which agrees with binary64 on every integer below 2^53.

    Inputs.  [Date.now()] and the two [Math.random()] draws of a tick are
    arguments of the tick function. *)

From Stdlib Require Import ZArith List Bool Lia Floats.
Import ListNotations.

Set Warnings "-inexact-float".

(** ** JavaScript's [Math] functions used by the component *)

Module Math.

(** [Math.min(a, b)]: NaN when an argument is NaN, and [-0] below [+0]. *)
Definition min (a b : float) : float :=
  if is_nan a || is_nan b then nan
  else if (a <? b)%float then a
  else if (b <? a)%float then b
  else if get_sign a then a else b.

(** [Math.max(a, b)]: NaN when an argument is NaN, and [+0] above [-0]. *)
Definition max (a b : float) : float :=
  if is_nan a || is_nan b then nan
  else if (a <? b)%float then b
  else if (b <? a)%float then a
  else if get_sign a then b else a.

(** [Math.floor(t)] read as an integer; [None] for NaN and the
    infinities, which index no array element. *)
Definition floor (t : float) : option Z :=
  match Prim2SF t with
  | S754_zero _ => Some 0%Z
  | S754_finite s m e =>
      Some (Z.shiftl (if s then Z.neg m else Z.pos m) e)
  | S754_infinity _ | S754_nan => None
  end.

End Math.

(** [arr[i]] for a number [i] that [Math.floor] produced: [undefined]
    (here [None]) outside the array. *)
Definition index {A : Type} (arr : list A) (i : option Z) : option A :=
  match i with
  | Some i => if (i <? 0)%Z then None else nth_error arr (Z.to_nat i)
  | None => None
  end.

(** ** The data model: the three interfaces of the source *)

Module Player.
Record t : Type := mk {
  x : float;
  y : float;
  width : float;
  height : float;
  velocityY : float;
  isJumping : bool;
  onGround : bool;
  animFrame : Z
}.
End Player.

Inductive ObstacleType : Type :=
  cactus | rock | spike | tree | crystal | mushroom.

Module Obstacle.
Record t : Type := mk {
  x : float;
  y : float;
  width : float;
  height : float;
  type : ObstacleType
}.
End Obstacle.

Module GameState.
Record t : Type := mk {
  isPlaying : bool;
  isGameOver : bool;
  score : Z;
  speed : float
}.
End GameState.

Definition CANVAS_WIDTH : float := 800.
Definition CANVAS_HEIGHT : float := 400.
Definition GROUND_HEIGHT : float := 80.
Definition GRAVITY : float := 0.8.
Definition JUMP_FORCE : float := (-16)%float.
Definition INITIAL_SPEED : float := 4.
Definition SPEED_INCREMENT : float := 0.002.

(** The state of the [App] component: its [useState] cells and the refs
    the simulation reads and writes. *)
Record App : Type := mkApp {
  gameState : GameState.t;
  player : Player.t;
  obstacles : list Obstacle.t;
  lastObstacleRef : float;
  groundOffsetRef : float;
  animationFrameRef : Z
}.

(** What a tick reads from outside: [Date.now()], the [Math.random()] of
    the spawn interval and the [Math.random()] of [generateObstacle]. *)
Record Env : Type := mkEnv {
  now : float;
  jitterDraw : float;
  typeDraw : float
}.

(** The pose both [useState<Player>] and [startGame] write. *)
Definition initialPlayer : Player.t :=
  Player.mk 80 (CANVAS_HEIGHT - GROUND_HEIGHT - 40) 28 40 0 false true 0.

(** The component's state at mount. *)
Definition initialApp : App :=
  mkApp (GameState.mk false false 0 INITIAL_SPEED) initialPlayer [] 0 0 0.

(** ** The callbacks *)

(** [jump]: the guard on [gameState], then the [setPlayer] updater. *)
Definition jumpPlayer (prev : Player.t) : Player.t :=
  if Player.onGround prev then
    Player.mk (Player.x prev) (Player.y prev) (Player.width prev)
              (Player.height prev) JUMP_FORCE true false
              (Player.animFrame prev)
  else prev.

Definition jump (a : App) : App :=
  if negb (GameState.isPlaying (gameState a))
     || GameState.isGameOver (gameState a)
  then a
  else mkApp (gameState a) (jumpPlayer (player a)) (obstacles a)
             (lastObstacleRef a) (groundOffsetRef a) (animationFrameRef a).

(** [checkCollision]: [a > b] is [b < a]. *)
Definition checkCollision (player : Player.t) (obstacle : Obstacle.t) : bool :=
  (Player.x player + 6 <? Obstacle.x obstacle + Obstacle.width obstacle)%float
  && (Obstacle.x obstacle <? Player.x player + Player.width player - 6)%float
  && (Player.y player + 6 <? Obstacle.y obstacle + Obstacle.height obstacle)%float
  && (Obstacle.y obstacle <? Player.y player + Player.height player)%float.

(** The table [types] of [generateObstacle]. *)
Definition types : list (ObstacleType * float * float) :=
  [ (cactus, 24, 48); (rock, 24, 24); (spike, 32, 16);
    (tree, 24, 56); (crystal, 24, 40); (mushroom, 24, 32) ]%float.

(** [generateObstacle], with its [Math.random()] as argument.  Reading
    [.height] of an [undefined] table entry throws: [None]. *)
Definition generateObstacle (random : float) : option Obstacle.t :=
  match index types (Math.floor (random * 6)) with
  | Some (ty, w, h) =>
      Some (Obstacle.mk CANVAS_WIDTH (CANVAS_HEIGHT - GROUND_HEIGHT - h) w h ty)
  | None => None
  end.

(** The [setPlayer] updater of [gameLoop]; [frame] is
    [animationFrameRef.current]. *)
Definition updatePlayer (frame : Z) (prev : Player.t) : Player.t :=
  let velocityY := (Player.velocityY prev + GRAVITY)%float in
  let y := (Player.y prev + velocityY)%float in
  let groundY := (CANVAS_HEIGHT - GROUND_HEIGHT - Player.height prev)%float in
  if (groundY <=? y)%float then
    Player.mk (Player.x prev) groundY (Player.width prev) (Player.height prev)
              0 false true frame
  else
    Player.mk (Player.x prev) y (Player.width prev) (Player.height prev)
              velocityY (Player.isJumping prev) false frame.

(** The [map] and [filter] of the [setObstacles] updater. *)
Definition shiftObstacle (speed : float) (obstacle : Obstacle.t) : Obstacle.t :=
  Obstacle.mk (Obstacle.x obstacle - speed) (Obstacle.y obstacle)
              (Obstacle.width obstacle) (Obstacle.height obstacle)
              (Obstacle.type obstacle).

Definition onScreen (obstacle : Obstacle.t) : bool :=
  (0 <? Obstacle.x obstacle + Obstacle.width obstacle)%float.

Definition scrollObstacles (speed : float) (prev : list Obstacle.t)
  : list Obstacle.t :=
  filter onScreen (map (shiftObstacle speed) prev).

(** The spawn interval and test of the [setObstacles] updater. *)
Definition baseInterval : float := 800.

Definition speedMultiplier (speed : float) : float :=
  Math.max 0.3 (1 - (speed - INITIAL_SPEED) * 0.1).

Definition interval (speed jitter : float) : float :=
  (baseInterval * speedMultiplier speed + jitter * 400)%float.

Definition spawnDue (speed : float) (last : float) (e : Env) : bool :=
  (interval speed (jitterDraw e) <? now e - last)%float.

(** The [setObstacles] updater: the new list and the new
    [lastObstacleRef.current]. *)
Definition updateObstacles (speed last : float) (e : Env)
    (prev : list Obstacle.t) : option (list Obstacle.t * float) :=
  let newObstacles := scrollObstacles speed prev in
  if spawnDue speed last e then
    match generateObstacle (typeDraw e) with
    | Some o => Some (newObstacles ++ [o], now e)
    | None => None
    end
  else Some (newObstacles, last).

(** The [setGameState] updater of [gameLoop]. *)
Definition updateGameState (prev : GameState.t) : GameState.t :=
  GameState.mk (GameState.isPlaying prev) (GameState.isGameOver prev)
               (GameState.score prev + 1)
               (Math.min (GameState.speed prev + SPEED_INCREMENT) 12).

(** [gameLoop]: one tick.  [None] is the exception of [generateObstacle]. *)
Definition gameLoop (e : Env) (a : App) : option App :=
  if negb (GameState.isPlaying (gameState a))
     || GameState.isGameOver (gameState a)
  then Some a
  else
    let speed := GameState.speed (gameState a) in
    let frame := (animationFrameRef a + 1)%Z in
    match updateObstacles speed (lastObstacleRef a) e (obstacles a) with
    | Some (newObstacles, last) =>
        Some (mkApp (updateGameState (gameState a))
                    (updatePlayer frame (player a))
                    newObstacles last
                    (groundOffsetRef a - speed)%float frame)
    | None => None
    end.

(** The collision effect: the [for] loop with its [break]. *)
Fixpoint collide (p : Player.t) (obs : list Obstacle.t) (prev : GameState.t)
  : GameState.t :=
  match obs with
  | [] => prev
  | obstacle :: rest =>
      if checkCollision p obstacle then
        GameState.mk (GameState.isPlaying prev) true
                     (GameState.score prev) (GameState.speed prev)
      else collide p rest prev
  end.

Definition collisionEffect (a : App) : App :=
  if negb (GameState.isPlaying (gameState a))
     || GameState.isGameOver (gameState a)
  then a
  else mkApp (collide (player a) (obstacles a) (gameState a)) (player a)
             (obstacles a) (lastObstacleRef a) (groundOffsetRef a)
             (animationFrameRef a).

(** [startGame]; [t] is its [Date.now()]. *)
Definition startGame (t : float) (a : App) : App :=
  mkApp (GameState.mk true false 0 INITIAL_SPEED)
        (Player.mk 80 (CANVAS_HEIGHT - GROUND_HEIGHT - 40) 28 40 0 false true 0)
        [] t 0 0.

(** The overlay holding the two buttons whose [onClick] is [startGame] is
    rendered under [(!gameState.isPlaying || gameState.isGameOver) && ...]. *)
Definition overlayShown (a : App) : bool :=
  negb (GameState.isPlaying (gameState a))
  || GameState.isGameOver (gameState a).

(** The start/restart command as the interface delivers it: a click on
    the button, which exists only while the overlay is shown. *)
Definition startCommand (t : float) (a : App) : App :=
  if overlayShown a then startGame t a else a.

(** The score the render effect and the header print:
    [Math.floor(gameState.score / 10)]. *)
Definition displayedScore (g : GameState.t) : Z :=
  (GameState.score g / 10)%Z.

(** ** Runs of the component *)

(** Playing: started and not over. *)
Definition playing (a : App) : bool :=
  GameState.isPlaying (gameState a)
  && negb (GameState.isGameOver (gameState a)).

(** One display refresh: the [gameLoop] callback, then the collision
    effect that the re-render with the new player and obstacles runs. *)
Definition frame (e : Env) (a : App) : option App :=
  option_map collisionEffect (gameLoop e a).

(** A sequence of refreshes, one [Env] each. *)
Fixpoint run (es : list Env) (a : App) : option App :=
  match es with
  | [] => Some a
  | e :: rest =>
      match frame e a with
      | Some a' => run rest a'
      | None => None
      end
  end.

(** The states the component can be in: from the mounted state, any
    interleaving of the two commands, ticks and the collision effect. *)
Inductive reachable : App -> Prop :=
| reach_mount : reachable initialApp
| reach_start t a : reachable a -> reachable (startCommand t a)
| reach_jump a : reachable a -> reachable (jump a)
| reach_tick e a a' : reachable a -> gameLoop e a = Some a' -> reachable a'
| reach_collide a : reachable a -> reachable (collisionEffect a).

(** The player's resting height: playfield height minus ground height
    minus player height. *)
Definition groundClamp (p : Player.t) : float :=
  (CANVAS_HEIGHT - GROUND_HEIGHT - Player.height p)%float.

(** The ground line on which obstacles stand. *)
Definition groundLine : float := (CANVAS_HEIGHT - GROUND_HEIGHT)%float.

(** ** Finite orbits

    Speed and player pose each follow a deterministic recurrence that
    reaches a fixed point, so the values they take in any run are the
    finitely many points of an orbit, computed here with the program's
    own arithmetic. *)

Fixpoint iter {A : Type} (f : A -> A) (n : nat) (x : A) : A :=
  match n with
  | O => x
  | S n => iter f n (f x)
  end.

Fixpoint orbit {A : Type} (f : A -> A) (n : nat) (x : A) : list A :=
  match n with
  | O => [x]
  | S n => x :: orbit f n (f x)
  end.

(** The speed ramp of [updateGameState]. *)
Definition rampSpeed (s : float) : float :=
  Math.min (s + SPEED_INCREMENT) 12.

(** Every speed of a round: 4, then 4000 ramp steps up to the cap. *)
Definition speeds : list float := orbit rampSpeed 4000 INITIAL_SPEED.

(** A player with its animation counter, which no rule reads, set to 0. *)
Definition pose (p : Player.t) : Player.t :=
  Player.mk (Player.x p) (Player.y p) (Player.width p) (Player.height p)
            (Player.velocityY p) (Player.isJumping p) (Player.onGround p) 0.

(** Every pose of a round: the take-off pose, then 39 physics steps, the
    last of which is the resting pose again. *)
Definition poses : list Player.t :=
  orbit (updatePlayer 0) 39 (jumpPlayer initialPlayer).

(** The two comparisons of the clamp claim, as one test on the pose
    before the step. *)
Definition clampCheck (q : Player.t) : bool :=
  let p := updatePlayer 0 q in
  (Player.y p <=? groundClamp p)%float
  && Bool.eqb (Player.onGround p) (Player.y p =? groundClamp p)%float.


(** The spawn-cadence factor on one speed: between the floor 0.3 and 1. *)
Definition multiplierCheck (s : float) : bool :=
  (0.3 <=? speedMultiplier s)%float && (speedMultiplier s <=? 1)%float.

(** The factor does not grow with the speed: for a speed [s], every
    speed of the list at or above [s] has a factor at most that of [s]. *)
Definition multiplierAntitone (l : list float) (s : float) : bool :=
  forallb (fun s' => implb (s <=? s')%float
                           (speedMultiplier s' <=? speedMultiplier s)%float) l.

(** A binary64 value that is a number: zero or finite, neither NaN nor
    an infinity. *)
Definition isNumber (x : float) : bool :=
  match Prim2SF x with
  | S754_zero _ | S754_finite _ _ _ => true
  | S754_infinity _ | S754_nan => false
  end.

(** An obstacle whose [x] is not NaN and whose [width] is a number. *)
Definition numericObstacle (o : Obstacle.t) : bool :=
  negb (is_nan (Obstacle.x o)) && isNumber (Obstacle.width o).

(** ** The collision test as the specification words it

    An overlap test on a hitbox shrunken by [inset] on each of the four
    sides of the sprite. *)
Definition insetOverlap (inset : float) (p : Player.t) (o : Obstacle.t) : bool :=
  (Player.x p + inset <? Obstacle.x o + Obstacle.width o)%float
  && (Obstacle.x o <? Player.x p + Player.width p - inset)%float
  && (Player.y p + inset <? Obstacle.y o + Obstacle.height o)%float
  && (Obstacle.y o <? Player.y p + Player.height p - inset)%float.

(** A pose of the descent, one tick before landing, and a spike under
    the player's feet. *)
Definition descendingPlayer : Player.t :=
  iter (updatePlayer 0) 38 (jumpPlayer initialPlayer).

Definition spikeUnderFoot : Obstacle.t :=
  Obstacle.mk 90 (CANVAS_HEIGHT - GROUND_HEIGHT - 16) 32 16 spike.

(** The inputs of a refresh at which nothing is due to spawn, and a
    round of 200 such refreshes from a fresh game. *)
Definition quietEnv : Env := mkEnv 0 0 0.

Definition quietRound : option App :=
  run (repeat quietEnv 200) (startGame 0 initialApp).

(** ** Sample rounds

    A fresh game in which the player has just jumped; and a round in which
    a tree spawns on the first refresh, the player jumps over it after 162
    more, and 34 refreshes later the tree is about to leave the screen. *)
Definition takeoff : App := jump (startGame 0 initialApp).

Definition spawnEnv : Env := mkEnv 5000 0.5 0.5.

Definition lateEnv : Env := mkEnv 20000 0.5 0.5.

Definition stateOf (r : option App) : App :=
  match r with
  | Some a => a
  | None => initialApp
  end.

Definition approachRound : option App :=
  run (spawnEnv :: repeat quietEnv 162) (startGame 0 initialApp).

Definition approachState : App := Eval vm_compute in stateOf approachRound.

Definition passingRound : option App :=
  run (repeat quietEnv 34) (jump approachState).

Definition passingState : App := Eval vm_compute in stateOf passingRound.

(** The states one tick after [takeoff] and [passingState], and at the end
    of [quietRound]. *)
Definition risingState : App :=
  Eval vm_compute in stateOf (gameLoop quietEnv takeoff).

Definition passedState : App :=
  Eval vm_compute in stateOf (gameLoop lateEnv passingState).

Definition quietState : App := Eval vm_compute in stateOf quietRound.

(** ** Random draws

    [Math.random()] returns a number at least 0 and below 1. *)
Definition unitDraw (r : float) : bool :=
  (0 <=? r)%float && (r <? 1)%float.

(** ** Sound

    [soundEnabled] (state) and [soundEnabledRef], [toggleSound], and
    [playSound] as the oscillator it schedules on the audio context: its
    frequency and waveform, the gain ramp from 0.1 to 0.01, and the start
    and stop times; [currentTime] is the audio clock. *)
Inductive OscillatorType : Type := sine | square | sawtooth | triangle.

Record Tone : Type := mkTone {
  toneFrequency : float;
  toneType : OscillatorType;
  gainStart : float;
  gainEnd : float;
  startTime : float;
  stopTime : float
}.

Record Audio : Type := mkAudio {
  soundEnabled : bool;
  soundEnabledRef : bool
}.

Definition initialAudio : Audio := mkAudio true true.

(** [toggleSound]: the updater writes the ref and returns the new state. *)
Definition toggleSound (s : Audio) : Audio :=
  mkAudio (negb (soundEnabled s)) (negb (soundEnabled s)).

Definition playSound (s : Audio) (currentTime frequency duration : float)
    (type : OscillatorType) : list Tone :=
  if negb (soundEnabled s) || negb (soundEnabledRef s) then []
  else [mkTone frequency type 0.1 0.01 currentTime (currentTime + duration)].

(** The sound of [jump]: played in the [setPlayer] updater, for a player
    on the ground. *)
Definition jumpTones (s : Audio) (currentTime : float) (a : App) : list Tone :=
  if negb (GameState.isPlaying (gameState a))
     || GameState.isGameOver (gameState a)
  then []
  else if Player.onGround (player a)
       then playSound s currentTime 400 0.1 square
       else [].

(** The sound of the collision effect: played at the first obstacle that
    collides, where the loop breaks. *)
Fixpoint collideTones (s : Audio) (currentTime : float) (p : Player.t)
    (obs : list Obstacle.t) : list Tone :=
  match obs with
  | [] => []
  | obstacle :: rest =>
      if checkCollision p obstacle
      then playSound s currentTime 150 0.5 sawtooth
      else collideTones s currentTime p rest
  end.

Definition collisionTones (s : Audio) (currentTime : float) (a : App)
  : list Tone :=
  if negb (GameState.isPlaying (gameState a))
     || GameState.isGameOver (gameState a)
  then []
  else collideTones s currentTime (player a) (obstacles a).

(** ** Tests on the tables

    The band the player stays in, and the poses high enough to be above
    every preset. *)
Definition bandCheck (p : Player.t) : bool :=
  (128 <=? Player.y p)%float && (Player.y p <=? 280)%float
  && (-16 <=? Player.velocityY p)%float && (Player.velocityY p <=? 16)%float
  && Bool.eqb (Player.isJumping p) (negb (Player.onGround p)).

Definition aboveTop (p : Player.t) (preset : ObstacleType * float * float)
  : bool :=
  let '(_, _, h) := preset in
  negb (CANVAS_HEIGHT - GROUND_HEIGHT - h
        <? Player.y p + Player.height p)%float.

Definition clearCheck (p : Player.t) : bool :=
  implb (Player.y p <=? 224)%float (forallb (aboveTop p) types).

(** The state three ticks after [takeoff], and the state 31 refreshes
    later, a tree having spawned on the first of them. *)
Definition risenState : App :=
  Eval vm_compute in stateOf (run (repeat quietEnv 3) takeoff).

Definition safeState : App :=
  Eval vm_compute in stateOf (run (spawnEnv :: repeat quietEnv 30) risenState).

(** A round of 4000 quiet refreshes, and the state at its end. *)
Definition longRound : list Env := repeat quietEnv 4000.

Definition cappedState : App :=
  Eval vm_compute in stateOf (run longRound (startGame 0 initialApp)).

(** A state in which two obstacles overlap the resting player. *)
Definition crowdedState : App :=
  mkApp (GameState.mk true false 50 4.1) initialPlayer
        [Obstacle.mk 90 (CANVAS_HEIGHT - GROUND_HEIGHT - 24) 24 24 rock;
         Obstacle.mk 95 (CANVAS_HEIGHT - GROUND_HEIGHT - 16) 32 16 spike]
        0 0 50.

(** The state 39 refreshes after the jump from [approachState]. *)
Definition landedState : App :=
  Eval vm_compute in stateOf (run (repeat quietEnv 39) (jump approachState)).

(** * Properties *)

(** The two orbits are tables: proofs compute on them, and never unfold
    them while simplifying a goal. *)
Arguments speeds : simpl never.
Arguments poses : simpl never.

(** ** Order on binary64 values

    From the specification of the primitive comparisons: on numbers (not
    NaN) [<] is the negation of the converse [<=]. *)

Lemma SFcompare_swap (x y : spec_float) :
  SFcompare y x = option_map CompOpp (SFcompare x y).
Proof.
  destruct x as [[]|[]| |[] m1 e1], y as [[]|[]| |[] m2 e2]; simpl;
    try reflexivity;
    rewrite (Z.compare_antisym e1 e2);
    destruct (e1 ?= e2)%Z; simpl; try reflexivity;
    rewrite (Pos.compare_cont_antisym m1 m2 Eq); simpl;
    rewrite ?CompOpp_involutive; reflexivity.
Qed.

Lemma SFcompare_refl (x : spec_float) :
  x <> S754_nan -> SFcompare x x = Some Eq.
Proof.
  destruct x as [[]|[]| |[] m e]; simpl; intros H; try reflexivity;
    try (exfalso; apply H; reflexivity);
    rewrite Z.compare_refl, Pos.compare_cont_refl; reflexivity.
Qed.

Lemma is_nan_Prim2SF (x : float) :
  is_nan x = true <-> Prim2SF x = S754_nan.
Proof.
  unfold is_nan. rewrite eqb_spec. unfold SFeqb. split.
  - intros H. destruct (Prim2SF x) eqn:E; try reflexivity;
      rewrite SFcompare_refl in H by discriminate; discriminate.
  - intros ->. reflexivity.
Qed.

Lemma ltb_negb_leb (x y : float) :
  is_nan x = false -> is_nan y = false ->
  (x <? y)%float = negb (y <=? x)%float.
Proof.
  intros Hx Hy. rewrite ltb_spec, leb_spec. unfold SFltb, SFleb.
  rewrite (SFcompare_swap (Prim2SF x) (Prim2SF y)).
  assert (Prim2SF x <> S754_nan) as Nx
    by (intros E; apply is_nan_Prim2SF in E; congruence).
  assert (Prim2SF y <> S754_nan) as Ny
    by (intros E; apply is_nan_Prim2SF in E; congruence).
  destruct (SFcompare (Prim2SF x) (Prim2SF y)) as [[]|] eqn:E; try reflexivity.
  exfalso.
  destruct (Prim2SF x) as [[]|[]| |[] ? ?], (Prim2SF y) as [[]|[]| |[] ? ?];
    simpl in E; try discriminate; congruence.
Qed.

(** ** Sums and differences that are not NaN

    From the specification of the primitive [+] and [-]: rounding a
    mantissa never yields NaN, so adding or subtracting a number keeps a
    value that is not NaN away from NaN. *)

Section Rounding.
Variables prec emax : Z.

Lemma shr_1_nonneg (mrs : shr_record) :
  (0 <= shr_m mrs)%Z -> (0 <= shr_m (shr_1 mrs))%Z.
Proof.
  destruct mrs as [[|[p|p|]|p] r s]; simpl; intros H; lia.
Qed.

Lemma iter_pos_invariant {A : Type} (P : A -> Prop) (f : A -> A) :
  (forall x, P x -> P (f x)) ->
  forall n x, P x -> P (iter_pos f n x).
Proof.
  intros Hf. induction n as [n IH|n IH|]; intros x Hx; simpl; auto.
Qed.

Lemma shr_fexp_nonneg (m e : Z) (l : location) :
  (0 <= m)%Z -> (0 <= shr_m (fst (shr_fexp prec emax m e l)))%Z.
Proof.
  intros H. unfold shr_fexp, shr.
  assert (H0 : (0 <= shr_m (shr_record_of_loc m l))%Z)
    by (destruct l as [|[]]; exact H).
  destruct (fexp prec emax (Zdigits2 m + e) - e)%Z; simpl; try exact H0.
  apply (iter_pos_invariant (fun r => 0 <= shr_m r)%Z); [apply shr_1_nonneg|exact H0].
Qed.

Lemma round_nearest_even_nonneg (m : Z) (l : location) :
  (0 <= m)%Z -> (0 <= round_nearest_even m l)%Z.
Proof.
  intros H. destruct l as [|[]]; simpl; try lia.
  destruct (Z.even m); lia.
Qed.

Lemma binary_round_aux_not_nan (sx : bool) (mx ex : Z) (lx : location) :
  (0 <= mx)%Z -> binary_round_aux prec emax sx mx ex lx <> S754_nan.
Proof.
  intros H. unfold binary_round_aux.
  pose proof (shr_fexp_nonneg mx ex lx H) as H1.
  destruct (shr_fexp prec emax mx ex lx) as [mrs' e']. simpl in H1.
  pose proof (shr_fexp_nonneg _ e' loc_Exact
                (round_nearest_even_nonneg _ (loc_of_shr_record mrs') H1)) as H2.
  destruct (shr_fexp prec emax _ e' loc_Exact) as [mrs'' e'']. simpl in H2.
  destruct (shr_m mrs''); try discriminate; [|lia].
  destruct (_ <=? _)%Z; discriminate.
Qed.

Lemma binary_normalize_not_nan (m e : Z) (sz : bool) :
  binary_normalize prec emax m e sz <> S754_nan.
Proof.
  unfold binary_normalize, binary_round.
  destruct m as [|p|p]; try discriminate;
    destruct (shl_align _ _ _) as [mz ez];
    apply binary_round_aux_not_nan; lia.
Qed.

Lemma SFsub_not_nan (x y : spec_float) :
  x <> S754_nan ->
  match y with S754_zero _ | S754_finite _ _ _ => True | _ => False end ->
  SFsub prec emax x y <> S754_nan.
Proof.
  intros Hx Hy.
  destruct x as [[]|[]| |sx mx ex], y as [[]|[]| |sy my ey];
    try contradiction; simpl; try discriminate; try congruence;
    apply binary_normalize_not_nan.
Qed.

Lemma SFadd_not_nan (x y : spec_float) :
  x <> S754_nan ->
  match y with S754_zero _ | S754_finite _ _ _ => True | _ => False end ->
  SFadd prec emax x y <> S754_nan.
Proof.
  intros Hx Hy.
  destruct x as [[]|[]| |sx mx ex], y as [[]|[]| |sy my ey];
    try contradiction; simpl; try discriminate; try congruence;
    apply binary_normalize_not_nan.
Qed.
End Rounding.

Lemma not_nan_Prim2SF (x : float) :
  is_nan x = false <-> Prim2SF x <> S754_nan.
Proof.
  pose proof (is_nan_Prim2SF x) as H.
  destruct (is_nan x); split; intros E; try reflexivity; try discriminate.
  - exfalso. apply E, H. reflexivity.
  - intros F. apply H in F. discriminate.
Qed.

Lemma isNumber_Prim2SF (y : float) :
  isNumber y = true ->
  match Prim2SF y with
  | S754_zero _ | S754_finite _ _ _ => True
  | _ => False
  end.
Proof. unfold isNumber. destruct (Prim2SF y); try discriminate; exact (fun _ => I). Qed.

Lemma sub_not_nan (x y : float) :
  is_nan x = false -> isNumber y = true -> is_nan (x - y) = false.
Proof.
  intros Hx Hy. apply not_nan_Prim2SF. rewrite sub_spec.
  apply SFsub_not_nan; [apply not_nan_Prim2SF, Hx|apply isNumber_Prim2SF, Hy].
Qed.

Lemma add_not_nan (x y : float) :
  is_nan x = false -> isNumber y = true -> is_nan (x + y) = false.
Proof.
  intros Hx Hy. apply not_nan_Prim2SF. rewrite add_spec.
  apply SFadd_not_nan; [apply not_nan_Prim2SF, Hx|apply isNumber_Prim2SF, Hy].
Qed.

(** ** Products with a random draw

    From the specification of the primitive [*]: the product of a draw in
    [[0, 1)] and a constant [c] that is not a power of two, rounded to
    nearest, stays in [[0, c)].  The mantissa arithmetic of the rounding is
    followed on integers, with values scaled by [2 ^ 2200]. *)

Section Binary64Rounding.
Local Open Scope Z_scope.

Lemma digits2_pos_bounds (m : positive) :
  2 ^ (Z.pos (digits2_pos m) - 1) <= Z.pos m < 2 ^ Z.pos (digits2_pos m).
Proof.
  induction m as [m IH|m IH|]; simpl digits2_pos.
  - rewrite Pos2Z.inj_succ.
    replace (Z.succ (Z.pos (digits2_pos m)) - 1) with (Z.succ (Z.pos (digits2_pos m) - 1)) by lia.
    rewrite !Z.pow_succ_r by lia. lia.
  - rewrite Pos2Z.inj_succ.
    replace (Z.succ (Z.pos (digits2_pos m)) - 1) with (Z.succ (Z.pos (digits2_pos m) - 1)) by lia.
    rewrite !Z.pow_succ_r by lia. lia.
  - simpl. lia.
Qed.

Section IterPos.
Context {A : Type} (f : A -> A).

Lemma iter_pos_nat (p : positive) (x : A) :
  iter_pos f p x = Nat.iter (Pos.to_nat p) f x.
Proof.
  revert x. induction p as [p IH|p IH|]; intros x; simpl iter_pos.
  - rewrite !IH. rewrite Pos2Nat.inj_xI.
    replace (S (2 * Pos.to_nat p)) with (Pos.to_nat p + (Pos.to_nat p + 1))%nat by lia.
    rewrite !Nat.iter_add. simpl. reflexivity.
  - rewrite !IH. rewrite Pos2Nat.inj_xO.
    replace (2 * Pos.to_nat p)%nat with (Pos.to_nat p + Pos.to_nat p)%nat by lia.
    rewrite Nat.iter_add. reflexivity.
  - reflexivity.
Qed.
End IterPos.

Lemma shr_1_m (mrs : shr_record) :
  0 <= shr_m mrs ->
  shr_m (shr_1 mrs) = shr_m mrs / 2 /\ shr_r (shr_1 mrs) = Z.odd (shr_m mrs).
Proof.
  destruct mrs as [[|[p|p|]|p] r s]; simpl; intros H; try lia; split; try reflexivity.
  - rewrite Pos2Z.inj_xI. apply (Z.div_unique _ _ _ 1); lia.
  - rewrite Pos2Z.inj_xO. apply (Z.div_unique _ _ _ 0); lia.
Qed.

Lemma shr_iter (P : Z) (k : nat) (mrs : shr_record) :
  0 <= shr_m mrs ->
  shr_m (Nat.iter (S k) shr_1 mrs) = shr_m mrs / 2 ^ Z.of_nat (S k)
  /\ shr_r (Nat.iter (S k) shr_1 mrs) = Z.odd (shr_m mrs / 2 ^ Z.of_nat k).
Proof.
  intros H. induction k as [|k [IH1 IH2]].
  - simpl Nat.iter. change (2 ^ Z.of_nat 1) with 2. change (2 ^ Z.of_nat 0) with 1.
    rewrite Z.div_1_r. apply shr_1_m, H.
  - change (Nat.iter (S (S k)) shr_1 mrs) with (shr_1 (Nat.iter (S k) shr_1 mrs)).
    assert (H0 : 0 <= shr_m (Nat.iter (S k) shr_1 mrs)).
    { rewrite IH1. apply Z.div_pos; [exact H|]. apply Z.pow_pos_nonneg; lia. }
    destruct (shr_1_m _ H0) as [E1 E2]. rewrite E1, E2, IH1. split; [|reflexivity].
    rewrite Z.div_div by (try apply Z.pow_pos_nonneg; lia).
    f_equal. rewrite (Nat2Z.inj_succ (S k)), Z.pow_succ_r by lia. lia.
Qed.

Lemma shr_exact (P E n : Z) :
  0 <= P ->
  (n <= 0 -> shr (shr_record_of_loc P loc_Exact) E n
             = (Build_shr_record P false false, E))
  /\ (0 < n ->
      snd (shr (shr_record_of_loc P loc_Exact) E n) = E + n
      /\ shr_m (fst (shr (shr_record_of_loc P loc_Exact) E n)) = P / 2 ^ n
      /\ shr_r (fst (shr (shr_record_of_loc P loc_Exact) E n))
         = Z.odd (P / 2 ^ (n - 1))).
Proof.
  intros HP. split; intros Hn.
  - destruct n as [|p|p]; try lia; reflexivity.
  - destruct n as [|p|p]; try lia. unfold shr. simpl fst. simpl snd.
    split; [reflexivity|].
    rewrite iter_pos_nat.
    destruct (Pos.to_nat p) as [|k] eqn:Ek; [lia|].
    destruct (shr_iter P k (Build_shr_record P false false) HP) as [H1 H2].
    simpl shr_record_of_loc. rewrite H1, H2. simpl shr_m.
    assert (Z.of_nat (S k) = Z.pos p) by lia.
    assert (Z.of_nat k = Z.pos p - 1) by lia.
    split; congruence.
Qed.

Lemma round_nearest_even_bound (m : shr_record) :
  0 <= shr_m m ->
  shr_m m <= round_nearest_even (shr_m m) (loc_of_shr_record m)
  <= shr_m m + (if shr_r m then 1 else 0).
Proof.
  destruct m as [m [] []]; simpl; intros H; try lia;
    destruct (Z.even m); lia.
Qed.

Lemma pow2_pos (k : Z) : 0 <= k -> 0 < 2 ^ k.
Proof. intros H. apply Z.pow_pos_nonneg; lia. Qed.

Lemma pow2_split (a b : Z) : 0 <= a -> 0 <= b -> 2 ^ (a + b) = 2 ^ a * 2 ^ b.
Proof. intros. apply Z.pow_add_r; assumption. Qed.

Lemma pow2_le (a b : Z) : a <= b -> 2 ^ a <= 2 ^ b.
Proof. intros H. apply Z.pow_le_mono_r; lia. Qed.

Lemma half_odd (q : Z) : q = 2 * (q / 2) + (if Z.odd q then 1 else 0).
Proof.
  pose proof (Z.div2_odd q) as H. rewrite Z.div2_div in H.
  revert H. destruct (Z.odd q); simpl; lia.
Qed.

Lemma digits_le (p : positive) (k : Z) :
  Z.pos p < 2 ^ k -> Z.pos (digits2_pos p) <= k.
Proof.
  intros H. destruct (digits2_pos_bounds p) as [L _].
  destruct (Z_lt_le_dec k (Z.pos (digits2_pos p))) as [G|G]; [|exact G].
  exfalso. assert (2 ^ k <= 2 ^ (Z.pos (digits2_pos p) - 1)) by (apply pow2_le; lia).
  lia.
Qed.

Section FirstRounding.
Variables (mc : positive) (ec : Z).
Hypothesis Hmc : 2 ^ 52 < Z.pos mc < 2 ^ 53.
Hypothesis Hec : -1074 <= ec <= 900.

Lemma first_round_below (m : positive) (e : Z) :
  Z.pos m < 2 ^ 53 -> -1074 <= e <= -53 ->
  forall mrs' e',
    shr_fexp prec emax (Z.pos (m * mc)) (e + ec) loc_Exact = (mrs', e') ->
    e + ec <= e'
    /\ 0 <= round_nearest_even (shr_m mrs') (loc_of_shr_record mrs')
    /\ round_nearest_even (shr_m mrs') (loc_of_shr_record mrs') * 2 ^ (e' + 2200)
       < Z.pos mc * 2 ^ (ec + 2200).
Proof.
  intros Hm He mrs' e' Hs.
  pose proof Hmc as Hmc'.
  change (2 ^ 53) with 9007199254740992 in Hm, Hmc'.
  change (2 ^ 52) with 4503599627370496 in Hmc'.
  set (P := Z.pos (m * mc)) in *. set (E := e + ec) in *.
  assert (HP : 0 <= P) by (unfold P; lia).
  assert (EP : P = Z.pos m * Z.pos mc) by (unfold P; lia).
  unfold shr_fexp in Hs.
  set (N := fexp prec emax (Zdigits2 P + E) - E) in *.
  (* the operands, scaled to integers *)
  set (a := 2 ^ (e + 1074)). set (b := 2 ^ (ec + 2200 - 1074)).
  set (t := 2 ^ 1021).
  assert (Ha : 0 < a) by (apply pow2_pos; lia).
  assert (Hb : 0 < b) by (apply pow2_pos; lia).
  assert (Ht : 0 < t) by (apply pow2_pos; lia).
  assert (Ha' : a <= t) by (apply pow2_le; lia).
  assert (Eab : 2 ^ (E + 2200) = a * b).
  { unfold a, b, E. rewrite <- pow2_split by lia. f_equal. lia. }
  assert (EC : 2 ^ (ec + 2200) = b * (9007199254740992 * t)).
  { unfold b, t. change 9007199254740992 with (2 ^ 53).
    rewrite <- !pow2_split by lia. f_equal. lia. }
  set (X := Z.pos mc * b).
  assert (HX : 0 < X) by (apply Z.mul_pos_pos; lia).
  assert (HXt : 0 < X * t) by (apply Z.mul_pos_pos; lia).
  assert (Hma : Z.pos m * a <= 9007199254740991 * t).
  { apply Z.mul_le_mono_nonneg; lia. }
  assert (HPab : P * (a * b) <= 9007199254740991 * (X * t)).
  { rewrite EP. unfold X.
    replace (Z.pos m * Z.pos mc * (a * b)) with (Z.pos mc * b * (Z.pos m * a)) by ring.
    replace (9007199254740991 * (Z.pos mc * b * t))
      with (Z.pos mc * b * (9007199254740991 * t)) by ring.
    apply Z.mul_le_mono_nonneg_l; [lia|exact Hma]. }
  assert (ECX : Z.pos mc * (b * (9007199254740992 * t)) = 9007199254740992 * (X * t))
    by (unfold X; ring).
  destruct (shr_exact P E N HP) as [H0 H1].
  destruct (Z_le_gt_dec N 0) as [HN|HN].
  - rewrite (H0 HN) in Hs. injection Hs as <- <-.
    cbn [shr_m loc_of_shr_record round_nearest_even].
    split; [lia|]. split; [exact HP|].
    rewrite Eab, EC, ECX. lia.
  - destruct (H1 ltac:(lia)) as (G1 & G2 & G3). rewrite Hs in G1, G2, G3.
    cbn [fst snd] in G1, G2, G3.
    assert (Hm' : 0 <= shr_m mrs').
    { rewrite G2. apply Z.div_pos; [exact HP|apply pow2_pos; lia]. }
    pose proof (round_nearest_even_bound mrs' Hm') as [B1 B2].
    set (M := round_nearest_even (shr_m mrs') (loc_of_shr_record mrs')) in *.
    set (Q := P / 2 ^ (N - 1)) in *.
    assert (HQ : shr_m mrs' = Q / 2).
    { rewrite G2. unfold Q. rewrite Z.div_div by (try apply pow2_pos; lia).
      f_equal. replace N with (N - 1 + 1) at 1 by lia.
      rewrite pow2_split by lia. reflexivity. }
    assert (H2M : 2 * M <= Q + 1).
    { pose proof (half_odd Q) as Hq. rewrite G3 in B2. rewrite HQ in B2.
      destruct (Z.odd Q); lia. }
    set (c1 := 2 ^ (N - 1)).
    assert (Hc1 : 0 < c1) by (apply pow2_pos; lia).
    assert (HQc : Q * c1 <= P).
    { unfold Q, c1. rewrite Z.mul_comm. apply Z.mul_div_le. apply pow2_pos; lia. }
    assert (Ee' : 2 ^ (e' + 2200) = 2 * c1 * (a * b)).
    { rewrite <- Eab. unfold c1. rewrite G1.
      replace (E + N + 2200) with (1 + (N - 1) + (E + 2200)) by lia.
      rewrite !pow2_split by lia. reflexivity. }
    assert (He' : e' <= ec).
    { rewrite G1. unfold N. replace (E + (fexp prec emax (Zdigits2 P + E) - E))
        with (fexp prec emax (Zdigits2 P + E)) by lia.
      assert (HdP : Zdigits2 P <= 106).
      { unfold P. simpl Zdigits2. apply digits_le.
        replace (2 ^ 106) with (9007199254740992 * 9007199254740992) by reflexivity.
        rewrite Pos2Z.inj_mul. apply Z.mul_lt_mono_nonneg; lia. }
      unfold fexp, emin, prec, emax, E. lia. }
    assert (Hc1ab : c1 * (a * b) <= 4503599627370496 * (b * t)).
    { replace (c1 * (a * b)) with (2 ^ (e' - 1 + 2200)).
      2:{ unfold c1. rewrite <- Eab, <- pow2_split by lia. f_equal. lia. }
      replace (4503599627370496 * (b * t)) with (2 ^ (ec - 1 + 2200)).
      2:{ unfold b, t. change 4503599627370496 with (2 ^ 52).
          rewrite <- !pow2_split by lia. f_equal. lia. }
      apply pow2_le. lia. }
    assert (Hbt : 0 < b * t) by (apply Z.mul_pos_pos; lia).
    assert (Hc1ab' : c1 * (a * b) < X * t).
    { unfold X. replace (Z.pos mc * b * t) with (Z.pos mc * (b * t)) by ring.
      apply Z.le_lt_trans with (1 := Hc1ab).
      apply Z.mul_lt_mono_pos_r; lia. }
    assert (Hab : 0 < a * b) by (apply Z.mul_pos_pos; lia).
    assert (HM1 : M * (2 * c1 * (a * b)) <= (Q + 1) * (c1 * (a * b))).
    { replace (M * (2 * c1 * (a * b))) with (2 * M * (c1 * (a * b))) by ring.
      apply Z.mul_le_mono_nonneg_r; [|exact H2M].
      apply Z.lt_le_incl, Z.mul_pos_pos; lia. }
    assert (HM2 : (Q + 1) * (c1 * (a * b)) <= P * (a * b) + c1 * (a * b)).
    { replace ((Q + 1) * (c1 * (a * b))) with (Q * c1 * (a * b) + c1 * (a * b)) by ring.
      apply Z.add_le_mono_r. apply Z.mul_le_mono_nonneg_r; [lia|exact HQc]. }
    split; [lia|]. split; [lia|].
    rewrite Ee', EC, ECX. lia.
Qed.
End FirstRounding.

Lemma second_round_below (M e' : Z) (mrs'' : shr_record) (e'' : Z) :
  0 <= M -> 0 <= e' + 2200 ->
  shr_fexp prec emax M e' loc_Exact = (mrs'', e'') ->
  e' <= e'' /\ 0 <= shr_m mrs''
  /\ shr_m mrs'' * 2 ^ (e'' + 2200) <= M * 2 ^ (e' + 2200).
Proof.
  intros HM He Hs. unfold shr_fexp in Hs.
  set (N := fexp prec emax (Zdigits2 M + e') - e') in *.
  destruct (shr_exact M e' N HM) as [H0 H1].
  destruct (Z_le_gt_dec N 0) as [HN|HN].
  - rewrite (H0 HN) in Hs. injection Hs as <- <-. cbn [shr_m]. lia.
  - destruct (H1 ltac:(lia)) as (G1 & G2 & _). rewrite Hs in G1, G2.
    cbn [fst snd] in G1, G2.
    assert (HN2 : 0 < 2 ^ N) by (apply pow2_pos; lia).
    assert (Hd : 0 <= M / 2 ^ N) by (apply Z.div_pos; lia).
    split; [lia|]. split; [lia|].
    rewrite G1, G2.
    replace (e' + N + 2200) with (N + (e' + 2200)) by lia.
    rewrite pow2_split by lia.
    rewrite Z.mul_assoc.
    apply Z.mul_le_mono_nonneg_r; [apply Z.lt_le_incl, pow2_pos; lia|].
    rewrite Z.mul_comm. apply Z.mul_div_le. exact HN2.
Qed.

Section ProductBelow.
Variables (mc : positive) (ec : Z).
Hypothesis Hmc : 2 ^ 52 < Z.pos mc < 2 ^ 53.
Hypothesis Hec : -1074 <= ec <= 900.

Lemma round_mul_below (m : positive) (e : Z) :
  Z.pos m < 2 ^ 53 -> -1074 <= e <= -53 ->
  match binary_round_aux prec emax false (Z.pos (m * mc)) (e + ec) loc_Exact with
  | S754_zero s => s = false
  | S754_finite s M2 e2 =>
      s = false /\ -2200 <= e2
      /\ Z.pos M2 * 2 ^ (e2 + 2200) < Z.pos mc * 2 ^ (ec + 2200)
  | _ => False
  end.
Proof.
  intros Hm He. unfold binary_round_aux.
  destruct (shr_fexp prec emax (Z.pos (m * mc)) (e + ec) loc_Exact)
    as [mrs' e'] eqn:S1.
  destruct (first_round_below mc ec Hmc Hec m e Hm He mrs' e' S1) as (A1 & A2 & A3).
  set (M := round_nearest_even (shr_m mrs') (loc_of_shr_record mrs')) in *.
  destruct (shr_fexp prec emax M e' loc_Exact) as [mrs'' e''] eqn:S2.
  destruct (second_round_below M e' mrs'' e'' A2 ltac:(lia) S2) as (B1 & B2 & B3).
  destruct (shr_m mrs'') as [|M2|M2] eqn:EM; [reflexivity| |lia].
  assert (HV : Z.pos M2 * 2 ^ (e'' + 2200) < Z.pos mc * 2 ^ (ec + 2200)) by lia.
  destruct (e'' <=? emax - prec) eqn:Ele.
  - split; [reflexivity|]. split; [lia|exact HV].
  - apply Z.leb_gt in Ele. unfold emax, prec in Ele.
    pose proof Hmc as Hmc'. change (2 ^ 53) with 9007199254740992 in Hmc'.
    set (u := 2 ^ 3100) in *.
    assert (Hu : 0 < u) by (apply pow2_pos; lia).
    assert (H1 : 2 ^ (ec + 2200) <= u) by (apply pow2_le; lia).
    assert (H2 : 4722366482869645213696 * u <= 2 ^ (e'' + 2200)).
    { change 4722366482869645213696 with (2 ^ 72). unfold u.
      rewrite <- pow2_split by lia. apply pow2_le. lia. }
    assert (H3 : Z.pos mc * 2 ^ (ec + 2200) <= 9007199254740992 * u).
    { apply Z.mul_le_mono_nonneg; try lia; apply Z.lt_le_incl, pow2_pos; lia. }
    assert (H4 : 1 * 2 ^ (e'' + 2200) <= Z.pos M2 * 2 ^ (e'' + 2200)).
    { apply Z.mul_le_mono_nonneg_r; [apply Z.lt_le_incl, pow2_pos|]; lia. }
    lia.
Qed.
End ProductBelow.

(** Canonical representations compare as their values do. *)
Lemma canonical_bounds (m : positive) (e : Z) :
  canonical_mantissa prec emax m e = true ->
  -1074 <= e /\ Z.pos m < 2 ^ 53 /\ (-1074 < e -> 2 ^ 52 <= Z.pos m).
Proof.
  unfold canonical_mantissa, fexp, emin, prec, emax. intros H.
  apply Z.eqb_eq in H.
  destruct (digits2_pos_bounds m) as [L U].
  split; [lia|]. split.
  - apply Z.lt_le_trans with (1 := U). apply pow2_le. lia.
  - intros He. apply Z.le_trans with (2 := L). apply pow2_le. lia.
Qed.

Lemma SFcompare_value_lt (m1 m2 : positive) (e1 e2 : Z) :
  canonical_mantissa prec emax m1 e1 = true ->
  canonical_mantissa prec emax m2 e2 = true ->
  Z.pos m1 * 2 ^ (e1 + 2200) < Z.pos m2 * 2 ^ (e2 + 2200) ->
  SFcompare (S754_finite false m1 e1) (S754_finite false m2 e2) = Some Lt.
Proof.
  intros C1 C2 H. simpl.
  destruct (canonical_bounds m1 e1 C1) as (L1 & U1 & N1).
  destruct (canonical_bounds m2 e2 C2) as (L2 & U2 & N2).
  destruct (Z.compare_spec e1 e2) as [->|Hlt|Hgt]; [|reflexivity|].
  - f_equal. change (Pos.compare_cont Eq m1 m2) with (m1 ?= m2)%positive.
    apply Pos.compare_lt_iff.
    assert (0 < 2 ^ (e2 + 2200)) by (apply pow2_pos; lia).
    apply Pos2Z.pos_lt_pos. nia.
  - exfalso. specialize (N1 ltac:(lia)).
    change (2 ^ 52) with 4503599627370496 in N1.
    change (2 ^ 53) with 9007199254740992 in U2.
    set (w := 2 ^ (e2 + 2200)) in *.
    assert (Hw : 0 < w) by (apply pow2_pos; lia).
    assert (H1 : 2 * w <= 2 ^ (e1 + 2200)).
    { unfold w. change 2 with (2 ^ 1) at 1. rewrite <- pow2_split by lia.
      apply pow2_le. lia. }
    assert (H2 : 4503599627370496 * (2 * w) <= Z.pos m1 * 2 ^ (e1 + 2200)).
    { apply Z.mul_le_mono_nonneg; lia. }
    assert (H3 : Z.pos m2 * w <= 9007199254740991 * w).
    { apply Z.mul_le_mono_nonneg_r; lia. }
    lia.
Qed.

Lemma SFcompare_finite_lt (m1 m2 : positive) (e1 e2 : Z) :
  SFcompare (S754_finite false m1 e1) (S754_finite false m2 e2) = Some Lt ->
  e1 < e2 \/ (e1 = e2 /\ Z.pos m1 < Z.pos m2).
Proof.
  simpl. destruct (Z.compare_spec e1 e2) as [->|Hlt|Hgt]; intros H.
  - right. split; [reflexivity|].
    change (Pos.compare_cont Eq m1 m2) with (m1 ?= m2)%positive in H.
    injection H as H. apply Pos2Z.pos_lt_pos. exact H.
  - left. exact Hlt.
  - discriminate.
Qed.

Lemma unit_draw_SF (r : float) :
  (0 <=? r)%float = true -> (r <? 1)%float = true ->
  (exists s, Prim2SF r = S754_zero s)
  \/ (exists m e, Prim2SF r = S754_finite false m e
                  /\ Z.pos m < 2 ^ 53 /\ -1074 <= e <= -53).
Proof.
  rewrite leb_spec, ltb_spec.
  change (Prim2SF 0) with (S754_zero false).
  change (Prim2SF 1) with (S754_finite false 4503599627370496 (-52)).
  pose proof (Prim2SF_valid r) as V.
  remember 4503599627370496%positive as c eqn:Ec.
  destruct (Prim2SF r) as [s|s| |s m e]; unfold SFleb, SFltb; intros H0 H1.
  - left. exists s. reflexivity.
  - destruct s; discriminate.
  - discriminate.
  - destruct s; [discriminate|]. right. exists m, e.
    cbn [valid_binary bounded] in V. apply andb_true_iff in V. destruct V as [V _].
    destruct (canonical_bounds m e V) as (L & U & N).
    split; [reflexivity|]. split; [exact U|]. split; [exact L|].
    destruct (SFcompare (S754_finite false m e) (S754_finite false c (-52)))
      as [[]|] eqn:E; try discriminate.
    apply SFcompare_finite_lt in E. destruct E as [E|[E1 E2]]; [lia|].
    exfalso. specialize (N ltac:(lia)).
    change (2 ^ 52) with 4503599627370496 in N. rewrite Ec in E2. lia.
Qed.

Section Scaled.
Variables (c : float) (mc : positive) (ec : Z).
Hypothesis Hc : Prim2SF c = S754_finite false mc ec.
Hypothesis Hmc : 2 ^ 52 < Z.pos mc < 2 ^ 53.
Hypothesis Hec : -1074 <= ec <= 900.

Lemma mul_draw_SF (r : float) :
  (0 <=? r)%float = true -> (r <? 1)%float = true ->
  match Prim2SF (r * c) with
  | S754_zero _ => True
  | S754_finite s M2 e2 =>
      s = false /\ -2200 <= e2
      /\ Z.pos M2 * 2 ^ (e2 + 2200) < Z.pos mc * 2 ^ (ec + 2200)
  | _ => False
  end.
Proof.
  intros H0 H1. rewrite mul_spec, Hc.
  destruct (unit_draw_SF r H0 H1) as [(s & ->)|(m & e & -> & Hm & He)].
  - exact I.
  - unfold SF64mul, SFmul. cbn [xorb].
    pose proof (round_mul_below mc ec Hmc Hec m e Hm He) as H.
    destruct (binary_round_aux prec emax false (Z.pos (m * mc)) (e + ec) loc_Exact)
      as [s|s| |s M2 e2]; try contradiction; [exact I|exact H].
Qed.

(** A draw in [[0, 1)] times [c] is in [[0, c)]. *)
Lemma mul_draw_range (r : float) :
  (0 <=? r)%float = true -> (r <? 1)%float = true ->
  (0 <=? r * c)%float = true /\ (r * c <? c)%float = true.
Proof.
  intros H0 H1. pose proof (mul_draw_SF r H0 H1) as H.
  pose proof (Prim2SF_valid (r * c)) as V.
  pose proof (Prim2SF_valid c) as Vc. rewrite Hc in Vc.
  rewrite leb_spec, ltb_spec, Hc.
  change (Prim2SF 0) with (S754_zero false).
  destruct (Prim2SF (r * c)) as [s|s| |s M2 e2]; try contradiction.
  - split; reflexivity.
  - destruct H as (-> & He2 & HV). split; [reflexivity|].
    simpl in V, Vc. apply andb_true_iff in V, Vc.
    unfold SFltb. rewrite (SFcompare_value_lt M2 mc e2 ec (proj1 V) (proj1 Vc) HV).
    reflexivity.
Qed.
End Scaled.

Lemma floor_draw (r : float) :
  (0 <=? r)%float = true -> (r <? 1)%float = true ->
  exists i, Math.floor (r * 6) = Some i /\ 0 <= i < 6.
Proof.
  intros H0 H1.
  pose proof (mul_draw_SF 6 6755399441055744 (-50) eq_refl
                ltac:(split; reflexivity) ltac:(lia) r H0 H1) as H.
  unfold Math.floor.
  destruct (Prim2SF (r * 6)) as [s|s| |s M2 e2]; try contradiction.
  - exists 0. split; [reflexivity|lia].
  - destruct H as (-> & He2 & HV). eexists. split; [reflexivity|].
    change (Z.pos 6755399441055744 * 2 ^ (-50 + 2200)) with (6 * 2 ^ 2200) in HV.
    set (k := 2 ^ 2200) in *.
    assert (Hk : 0 < k) by (apply pow2_pos; lia).
    destruct (Z_le_gt_dec 0 e2) as [Hpos|Hneg].
    + rewrite Z.shiftl_mul_pow2 by lia.
      assert (0 < 2 ^ e2) by (apply pow2_pos; lia).
      replace (2 ^ (e2 + 2200)) with (2 ^ e2 * k) in HV
        by (unfold k; rewrite <- pow2_split by lia; reflexivity).
      split; [lia|]. nia.
    + rewrite Z.shiftl_div_pow2 by lia.
      set (n := 2 ^ (- e2)) in *.
      assert (Hn : 0 < n) by (apply pow2_pos; lia).
      assert (Hkn : k = n * 2 ^ (e2 + 2200)).
      { unfold k, n. rewrite <- pow2_split by lia. f_equal. lia. }
      assert (Hw : 0 < 2 ^ (e2 + 2200)) by (apply pow2_pos; lia).
      assert (Hd : n * (Z.pos M2 / n) <= Z.pos M2) by (apply Z.mul_div_le; lia).
      assert (Hq : 0 <= Z.pos M2 / n) by (apply Z.div_pos; lia).
      split; [lia|].
      set (q := Z.pos M2 / n) in *. set (w := 2 ^ (e2 + 2200)) in *.
      assert (q * n * w <= Z.pos M2 * w).
      { apply Z.mul_le_mono_nonneg_r; lia. }
      assert (q * k < 6 * k) by (rewrite Hkn; lia).
      nia.
Qed.

End Binary64Rounding.

(** ** Orbits *)

Section Orbit.
Context {A : Type} (f : A -> A).

Lemma orbit_head (n : nat) (x : A) : In x (orbit f n x).
Proof. destruct n; simpl; auto. Qed.

Lemma iter_succ (n : nat) (x : A) : iter f (S n) x = f (iter f n x).
Proof.
  revert x; induction n as [|n IH]; intros x; [reflexivity|].
  change (iter f (S (S n)) x) with (iter f (S n) (f x)).
  rewrite IH; reflexivity.
Qed.

(** An orbit whose last point is a fixed point is closed under [f]. *)
Lemma orbit_closed (n : nat) (x : A) :
  f (iter f n x) = iter f n x ->
  forall y, In y (orbit f n x) -> In (f y) (orbit f n x).
Proof.
  revert x; induction n as [|n IH]; intros x Hfix y Hy.
  - destruct Hy as [<-|[]]. simpl in *. left; symmetry; exact Hfix.
  - destruct Hy as [<-|Hy].
    + right. apply orbit_head.
    + right. apply IH; assumption.
Qed.

Lemma orbit_nth (n k : nat) (x d : A) :
  (k <= n)%nat -> nth k (orbit f n x) d = iter f k x.
Proof.
  revert k x; induction n as [|n IH]; intros k x Hk.
  - assert (k = 0%nat) by lia; subst; reflexivity.
  - destruct k as [|k]; [reflexivity|].
    simpl. apply IH; lia.
Qed.

Lemma orbit_iter (n k : nat) (x : A) :
  (k <= n)%nat -> In (iter f k x) (orbit f n x).
Proof.
  revert k x; induction n as [|n IH]; intros k x Hk.
  - assert (k = 0%nat) by lia; subst; left; reflexivity.
  - destruct k as [|k]; [left; reflexivity|].
    right. apply (IH k (f x)); lia.
Qed.
End Orbit.

(** ** The speed ramp *)

Lemma speeds_closed (s : float) : In s speeds -> In (rampSpeed s) speeds.
Proof.
  apply (orbit_closed rampSpeed 4000 INITIAL_SPEED).
  vm_compute; reflexivity.
Qed.

Lemma speeds_forall (P : float -> bool) :
  forallb P speeds = true -> forall s, In s speeds -> P s = true.
Proof. intros H s Hs. exact (proj1 (forallb_forall P speeds) H s Hs). Qed.

(** ** The player's poses *)

Lemma pose_updatePlayer (k : Z) (p : Player.t) :
  pose (updatePlayer k p) = updatePlayer 0 (pose p).
Proof.
  unfold updatePlayer, pose; simpl.
  destruct (_ <=? _)%float; reflexivity.
Qed.

Lemma pose_jumpPlayer (p : Player.t) :
  pose (jumpPlayer p) = jumpPlayer (pose p).
Proof. destruct p as [x y w h v j [] k]; reflexivity. Qed.

Lemma poses_update (p : Player.t) : In p poses -> In (updatePlayer 0 p) poses.
Proof.
  apply (orbit_closed (updatePlayer 0) 39 (jumpPlayer initialPlayer)).
  vm_compute; reflexivity.
Qed.

Lemma poses_rest : In initialPlayer poses.
Proof.
  assert (E : iter (updatePlayer 0) 39 (jumpPlayer initialPlayer) = initialPlayer)
    by (vm_compute; reflexivity).
  rewrite <- E at 1. apply orbit_iter; lia.
Qed.

Lemma poses_forall (P : Player.t -> bool) :
  forallb P poses = true -> forall p, In p poses -> P p = true.
Proof. intros H p Hp. exact (proj1 (forallb_forall P poses) H p Hp). Qed.

Lemma poses_jump (p : Player.t) : In p poses -> In (jumpPlayer p) poses.
Proof.
  intros H. unfold jumpPlayer.
  destruct (Player.onGround p) eqn:E; [|exact H].
  vm_compute in H.
  repeat (destruct H as [<-|H]; [try discriminate E|]); [|contradiction].
  vm_compute. left; reflexivity.
Qed.

(** ** The shape of a tick *)

Lemma guard_playing (a : App) :
  negb (GameState.isPlaying (gameState a))
  || GameState.isGameOver (gameState a) = negb (playing a).
Proof.
  unfold playing.
  destruct (GameState.isPlaying _), (GameState.isGameOver _); reflexivity.
Qed.

Lemma gameLoop_not_playing (e : Env) (a : App) :
  playing a = false -> gameLoop e a = Some a.
Proof. intros H. unfold gameLoop. rewrite guard_playing, H. reflexivity. Qed.

Lemma gameLoop_over (e : Env) (a : App) :
  GameState.isGameOver (gameState a) = true -> gameLoop e a = Some a.
Proof.
  intros H. apply gameLoop_not_playing.
  unfold playing. rewrite H. apply andb_false_r.
Qed.

Lemma gameLoop_playing (e : Env) (a a' : App) :
  playing a = true -> gameLoop e a = Some a' ->
  exists newObstacles last,
    updateObstacles (GameState.speed (gameState a)) (lastObstacleRef a) e
                    (obstacles a) = Some (newObstacles, last)
    /\ a' = mkApp (updateGameState (gameState a))
                  (updatePlayer (animationFrameRef a + 1) (player a))
                  newObstacles last
                  (groundOffsetRef a - GameState.speed (gameState a))%float
                  (animationFrameRef a + 1).
Proof.
  intros Hp H. unfold gameLoop in H. rewrite guard_playing, Hp in H.
  simpl in H.
  destruct (updateObstacles _ _ _ _) as [[obs last]|]; [|discriminate].
  injection H as <-. exists obs, last. split; reflexivity.
Qed.

Lemma collide_cases (p : Player.t) (obs : list Obstacle.t) (g : GameState.t) :
  collide p obs g = g
  \/ collide p obs g
     = GameState.mk (GameState.isPlaying g) true (GameState.score g)
                    (GameState.speed g).
Proof.
  induction obs as [|o rest IH]; simpl; [left; reflexivity|].
  destruct (checkCollision p o); [right; reflexivity|exact IH].
Qed.

Lemma collide_existsb (p : Player.t) (obs : list Obstacle.t) (g : GameState.t) :
  collide p obs g
  = if existsb (checkCollision p) obs
    then GameState.mk (GameState.isPlaying g) true (GameState.score g)
                      (GameState.speed g)
    else g.
Proof.
  induction obs as [|o rest IH]; simpl; [reflexivity|].
  destruct (checkCollision p o); [reflexivity|exact IH].
Qed.

(** ** What holds in every reachable state *)

Lemma reachable_orbits (a : App) :
  reachable a ->
  In (GameState.speed (gameState a)) speeds /\ In (pose (player a)) poses.
Proof.
  induction 1 as [|t a _ [IHs IHp]|a _ [IHs IHp]|e a a' _ [IHs IHp] Ht
                  |a _ [IHs IHp]].
  - split; [apply orbit_head|exact poses_rest].
  - unfold startCommand. destruct (overlayShown a); [|split; assumption].
    split; [apply orbit_head|exact poses_rest].
  - unfold jump. destruct (_ || _); [split; assumption|].
    split; [exact IHs|].
    change (In (pose (jumpPlayer (player a))) poses).
    rewrite pose_jumpPlayer. apply poses_jump, IHp.
  - destruct (playing a) eqn:Hp.
    + destruct (gameLoop_playing e a a' Hp Ht) as (obs & last & _ & ->).
      split.
      * change (In (rampSpeed (GameState.speed (gameState a))) speeds).
        apply speeds_closed, IHs.
      * change (In (pose (updatePlayer (animationFrameRef a + 1) (player a)))
                   poses).
        rewrite pose_updatePlayer. apply poses_update, IHp.
    + rewrite (gameLoop_not_playing e a Hp) in Ht. injection Ht as <-.
      split; assumption.
  - unfold collisionEffect. destruct (_ || _); [split; assumption|].
    split; [|exact IHp].
    change (In (GameState.speed
                  (collide (player a) (obstacles a) (gameState a))) speeds).
    destruct (collide_cases (player a) (obstacles a) (gameState a)) as [E|E];
      rewrite E; exact IHs.
Qed.

(** ** The physics step *)

Lemma updatePlayer_landed (k : Z) (p : Player.t) :
  Player.onGround (updatePlayer k p) = true ->
  Player.velocityY (updatePlayer k p) = 0%float
  /\ Player.y (updatePlayer k p) = groundClamp (updatePlayer k p)
  /\ Player.isJumping (updatePlayer k p) = false.
Proof.
  unfold updatePlayer, groundClamp.
  destruct (_ <=? _)%float; simpl; [repeat split|discriminate].
Qed.

Lemma clampCheck_pose (k : Z) (p : Player.t) :
  clampCheck (pose p) = true ->
  (Player.y (updatePlayer k p) <=? groundClamp (updatePlayer k p))%float = true
  /\ Player.onGround (updatePlayer k p)
     = (Player.y (updatePlayer k p) =? groundClamp (updatePlayer k p))%float.
Proof.
  unfold clampCheck; cbv zeta. rewrite <- (pose_updatePlayer k p).
  intros H. apply andb_true_iff in H. destruct H as [H1 H2].
  apply Bool.eqb_prop in H2. split; [exact H1|exact H2].
Qed.

(** C2.  After every tick run while Playing (and not GameOver) from a
    reachable state, the player's [y] is at most the ground clamp
    (playfield height minus ground height minus player height), on-ground
    is true exactly when [y] equals the clamp, and when on-ground is true
    the velocity is exactly 0 and [y] is the clamp. *)
Theorem tick_player_at_or_above_clamp (e : Env) (a a' : App) :
  reachable a -> playing a = true -> gameLoop e a = Some a' ->
  (Player.y (player a') <=? groundClamp (player a'))%float = true
  /\ Player.onGround (player a')
     = (Player.y (player a') =? groundClamp (player a'))%float
  /\ (Player.onGround (player a') = true ->
      Player.velocityY (player a') = 0%float
      /\ Player.y (player a') = groundClamp (player a')).
Proof.
  intros Hr Hp Ht.
  destruct (gameLoop_playing e a a' Hp Ht) as (obs & last & _ & ->); simpl.
  destruct (reachable_orbits a Hr) as [_ Hq].
  assert (Hc : clampCheck (pose (player a)) = true).
  { revert Hq. apply (poses_forall clampCheck). vm_compute; reflexivity. }
  destruct (clampCheck_pose (animationFrameRef a + 1) (player a) Hc) as [H1 H2].
  repeat split; try assumption;
    apply (updatePlayer_landed (animationFrameRef a + 1) (player a)); assumption.
Qed.

(** ** Score and speed *)


(** ** The jump command *)

(** C5.  [jump] leaves the whole state unchanged unless the game is
    Playing, not GameOver, and the player is on the ground; when accepted
    it sets the velocity to the impulse -16 and on-ground to false and
    changes nothing but the player.  Hence a jump while airborne keeps the
    velocity, and jumping twice is jumping once. *)
Theorem jump_only_from_ground (a : App) :
  (playing a && Player.onGround (player a) = false -> jump a = a)
  /\ (playing a && Player.onGround (player a) = true ->
      Player.velocityY (player (jump a)) = (-16)%float
      /\ Player.onGround (player (jump a)) = false
      /\ Player.x (player (jump a)) = Player.x (player a)
      /\ Player.y (player (jump a)) = Player.y (player a)
      /\ gameState (jump a) = gameState a
      /\ obstacles (jump a) = obstacles a)
  /\ (Player.onGround (player a) = false ->
      Player.velocityY (player (jump a)) = Player.velocityY (player a)
      /\ Player.velocityY (player (jump (jump a))) = Player.velocityY (player a))
  /\ jump (jump a) = jump a.
Proof.
  destruct a as [g p obs last off fr].
  unfold jump, playing; rewrite guard_playing; unfold playing; simpl.
  destruct g as [[] [] sc sp], p as [x y w h v j [] k]; simpl;
    repeat split; intros; try reflexivity; discriminate.
Qed.

(** ** The start command *)

(** C6.  From Idle or GameOver the start/restart command gives a Playing
    state with score 0, speed 4, the player in its initial pose (x = 80,
    y at the ground clamp, velocity 0, on the ground) and no obstacles.
    While Playing the command changes nothing: the button that issues it
    is not on the screen. *)
Theorem start_resets_or_is_ignored (t : float) (a : App) :
  (playing a = false ->
     playing (startCommand t a) = true
     /\ GameState.score (gameState (startCommand t a)) = 0%Z
     /\ GameState.speed (gameState (startCommand t a)) = 4%float
     /\ Player.x (player (startCommand t a)) = 80%float
     /\ Player.y (player (startCommand t a))
        = groundClamp (player (startCommand t a))
     /\ Player.velocityY (player (startCommand t a)) = 0%float
     /\ Player.onGround (player (startCommand t a)) = true
     /\ player (startCommand t a) = initialPlayer
     /\ obstacles (startCommand t a) = [])
  /\ (playing a = true -> startCommand t a = a).
Proof.
  unfold startCommand, overlayShown. rewrite guard_playing.
  split; intros ->; simpl; [repeat split|reflexivity].
Qed.

(** [startGame] itself has no guard: called on any state it resets. *)
Lemma startGame_unguarded (t : float) (a : App) :
  startGame t a = mkApp (GameState.mk true false 0 4) initialPlayer [] t 0 0.
Proof. reflexivity. Qed.

(** ** The collision effect *)

Lemma collisionEffect_eq (a : App) :
  collisionEffect a
  = mkApp (GameState.mk
             (GameState.isPlaying (gameState a))
             (GameState.isGameOver (gameState a)
              || playing a && existsb (checkCollision (player a)) (obstacles a))
             (GameState.score (gameState a))
             (GameState.speed (gameState a)))
          (player a) (obstacles a) (lastObstacleRef a) (groundOffsetRef a)
          (animationFrameRef a).
Proof.
  unfold collisionEffect; rewrite guard_playing;
    destruct a as [g p obs last off fr]; unfold playing; simpl;
    rewrite collide_existsb;
    destruct g as [[] [] sc sp]; simpl; try reflexivity;
    destruct (existsb _ obs); reflexivity.
Qed.

(** C10.  The collision effect changes at most the [isGameOver] flag:
    [isPlaying], score, speed, the player, the obstacle list and the refs
    are as before, and the flag becomes true exactly when it was true or
    the game was Playing and some live obstacle collides.  Once the flag
    is set a tick changes nothing, so score and speed stay those of the
    last Playing tick. *)
Theorem collision_sets_only_game_over (a : App) :
  GameState.isPlaying (gameState (collisionEffect a))
    = GameState.isPlaying (gameState a)
  /\ GameState.score (gameState (collisionEffect a))
     = GameState.score (gameState a)
  /\ GameState.speed (gameState (collisionEffect a))
     = GameState.speed (gameState a)
  /\ player (collisionEffect a) = player a
  /\ obstacles (collisionEffect a) = obstacles a
  /\ lastObstacleRef (collisionEffect a) = lastObstacleRef a
  /\ groundOffsetRef (collisionEffect a) = groundOffsetRef a
  /\ animationFrameRef (collisionEffect a) = animationFrameRef a
  /\ GameState.isGameOver (gameState (collisionEffect a))
     = (GameState.isGameOver (gameState a)
        || playing a && existsb (checkCollision (player a)) (obstacles a))
  /\ (forall e, GameState.isGameOver (gameState (collisionEffect a)) = true ->
        gameLoop e (collisionEffect a) = Some (collisionEffect a)).
Proof.
  rewrite (collisionEffect_eq a). simpl.
  repeat split; try reflexivity.
  intros e H. apply gameLoop_over. exact H.
Qed.

(** ** The collision test *)

(** C1, as the specification words it, fails: with the program's inset
    of 6 taken on all four sides, a player whose feet are 0.8 below the
    top of a spike does not overlap it, while [checkCollision] reports a
    collision. *)
Lemma checkCollision_bottom_not_inset :
  checkCollision descendingPlayer spikeUnderFoot = true
  /\ insetOverlap 6 descendingPlayer spikeUnderFoot = false.
Proof. split; vm_compute; reflexivity. Qed.

(** C1, amended.  [checkCollision] holds exactly when the four overlap
    conditions hold on the hitbox inset by 6 on the left, the right and
    the top of the sprite, and not inset at the bottom. *)
Theorem checkCollision_iff (p : Player.t) (o : Obstacle.t) :
  checkCollision p o = true <->
  (Player.x p + 6 <? Obstacle.x o + Obstacle.width o)%float = true
  /\ (Obstacle.x o <? Player.x p + Player.width p - 6)%float = true
  /\ (Player.y p + 6 <? Obstacle.y o + Obstacle.height o)%float = true
  /\ (Obstacle.y o <? Player.y p + Player.height p)%float = true.
Proof.
  unfold checkCollision. rewrite !andb_true_iff. tauto.
Qed.

(** ** Scrolling and recycling obstacles *)

Lemma index_In {A : Type} (arr : list A) (i : option Z) (v : A) :
  index arr i = Some v -> In v arr.
Proof.
  destruct i as [i|]; simpl; [|discriminate].
  destruct (i <? 0)%Z; [discriminate|]. apply nth_error_In.
Qed.

Lemma generateObstacle_preset (random : float) (o : Obstacle.t) :
  generateObstacle random = Some o ->
  In (Obstacle.type o, Obstacle.width o, Obstacle.height o) types
  /\ Obstacle.x o = CANVAS_WIDTH
  /\ (Obstacle.y o + Obstacle.height o)%float = groundLine.
Proof.
  unfold generateObstacle.
  destruct (index types _) as [[[ty w] h]|] eqn:E; [|discriminate].
  intros H; injection H as <-. apply index_In in E. simpl.
  split; [exact E|split; [reflexivity|]].
  unfold types in E. simpl in E.
  repeat (destruct E as [E|E]; [injection E as <- <- <-; vm_compute; reflexivity|]).
  contradiction.
Qed.

Lemma onScreen_negb_leb (o : Obstacle.t) :
  is_nan (Obstacle.x o + Obstacle.width o) = false ->
  onScreen o = negb (Obstacle.x o + Obstacle.width o <=? 0)%float.
Proof.
  intros H. unfold onScreen. apply ltb_negb_leb; [reflexivity|exact H].
Qed.

Lemma updateObstacles_cases (speed last : float) (e : Env)
    (prev new : list Obstacle.t) (last' : float) :
  updateObstacles speed last e prev = Some (new, last') ->
  (spawnDue speed last e = false
   /\ new = scrollObstacles speed prev /\ last' = last)
  \/ (spawnDue speed last e = true
      /\ exists o, generateObstacle (typeDraw e) = Some o
                   /\ new = scrollObstacles speed prev ++ [o]
                   /\ last' = now e).
Proof.
  unfold updateObstacles. destruct (spawnDue speed last e).
  - destruct (generateObstacle (typeDraw e)) as [o|]; [|discriminate].
    intros H; injection H as <- <-. right. split; [reflexivity|].
    exists o. repeat split.
  - intros H; injection H as <- <-. left. repeat split.
Qed.

Lemma speeds_numbers (s : float) : In s speeds -> isNumber s = true.
Proof. apply (speeds_forall isNumber). vm_compute; reflexivity. Qed.

Lemma shiftObstacle_numeric (s : float) (o : Obstacle.t) :
  isNumber s = true -> numericObstacle o = true ->
  numericObstacle (shiftObstacle s o) = true.
Proof.
  unfold numericObstacle. intros Hs H.
  apply andb_true_iff in H. destruct H as [Hx Hw].
  apply andb_true_iff. split; [|exact Hw].
  apply negb_true_iff, sub_not_nan; [apply negb_true_iff, Hx|exact Hs].
Qed.

Lemma generateObstacle_numeric (random : float) (o : Obstacle.t) :
  generateObstacle random = Some o -> numericObstacle o = true.
Proof.
  intros H. destruct (generateObstacle_preset random o H) as (Hin & Hx & _).
  unfold numericObstacle. rewrite Hx.
  unfold types in Hin. simpl in Hin.
  repeat (destruct Hin as [E|Hin];
          [injection E as _ <- _; vm_compute; reflexivity|]).
  contradiction.
Qed.

Lemma scrollObstacles_numeric (s : float) (prev : list Obstacle.t) :
  isNumber s = true ->
  Forall (fun o => numericObstacle o = true) prev ->
  Forall (fun o => numericObstacle o = true) (scrollObstacles s prev).
Proof.
  intros Hs H. rewrite Forall_forall in *. intros o' Ho'.
  apply filter_In in Ho'. destruct Ho' as [Ho' _].
  apply in_map_iff in Ho'. destruct Ho' as (o & <- & Ho).
  apply shiftObstacle_numeric; [exact Hs|apply H, Ho].
Qed.

(** In every reachable state the live obstacles have coordinates that
    are numbers. *)
Lemma reachable_obstacles (a : App) :
  reachable a -> Forall (fun o => numericObstacle o = true) (obstacles a).
Proof.
  induction 1 as [|t a _ IH|a _ IH|e a a' Hr IH Ht|a _ IH].
  - constructor.
  - unfold startCommand. destruct (overlayShown a); [constructor|exact IH].
  - unfold jump. destruct (_ || _); exact IH.
  - destruct (playing a) eqn:Hp.
    + destruct (gameLoop_playing e a a' Hp Ht) as (obs & last & Hu & ->).
      change (Forall (fun o => numericObstacle o = true) obs).
      pose proof (speeds_numbers _ (proj1 (reachable_orbits a Hr))) as Hs.
      pose proof (scrollObstacles_numeric _ _ Hs IH) as Hsc.
      apply updateObstacles_cases in Hu.
      destruct Hu as [(_ & -> & _)|(_ & o & Hg & -> & _)]; [exact Hsc|].
      apply Forall_app. split; [exact Hsc|].
      constructor; [exact (generateObstacle_numeric _ _ Hg)|constructor].
    + rewrite (gameLoop_not_playing e a Hp) in Ht. injection Ht as <-. exact IH.
  - unfold collisionEffect. destruct (_ || _); exact IH.
Qed.

Lemma numericObstacle_edge (o : Obstacle.t) :
  numericObstacle o = true ->
  is_nan (Obstacle.x o + Obstacle.width o) = false.
Proof.
  unfold numericObstacle. intros H.
  apply andb_true_iff in H. destruct H as [Hx Hw].
  apply add_not_nan; [apply negb_true_iff, Hx|exact Hw].
Qed.

(** C3.  On a tick while Playing the new obstacle list is the old one
    with every [x] lowered by exactly the current speed and then the
    obstacles whose [x + width] is [<= 0] dropped, followed by the obstacle
    the tick spawned, if any.  A shifted obstacle keeps [y], [width],
    [height] and [type], and it is dropped on this tick if and only if its
    shifted [x + width] is [<= 0]. *)
Theorem tick_scrolls_obstacles (e : Env) (a a' : App) :
  reachable a -> playing a = true -> gameLoop e a = Some a' ->
  exists spawned,
    obstacles a'
    = filter (fun o' => negb (Obstacle.x o' + Obstacle.width o' <=? 0)%float)
        (map (shiftObstacle (GameState.speed (gameState a))) (obstacles a))
      ++ spawned
    /\ (spawned = []
        \/ exists o, generateObstacle (typeDraw e) = Some o /\ spawned = [o])
    /\ forall o, In o (obstacles a) ->
       let o' := shiftObstacle (GameState.speed (gameState a)) o in
       Obstacle.x o' = (Obstacle.x o - GameState.speed (gameState a))%float
       /\ Obstacle.y o' = Obstacle.y o
       /\ Obstacle.width o' = Obstacle.width o
       /\ Obstacle.height o' = Obstacle.height o
       /\ Obstacle.type o' = Obstacle.type o
       /\ (In o' (scrollObstacles (GameState.speed (gameState a)) (obstacles a))
           <-> (Obstacle.x o' + Obstacle.width o' <=? 0)%float = false).
Proof.
  intros Hr Hp Ht.
  destruct (gameLoop_playing e a a' Hp Ht) as (obs & last & Hu & ->).
  change (obstacles (mkApp _ _ obs _ _ _)) with obs.
  apply updateObstacles_cases in Hu.
  pose proof (speeds_numbers _ (proj1 (reachable_orbits a Hr))) as Hs.
  pose proof (reachable_obstacles a Hr) as Hnum. rewrite Forall_forall in Hnum.
  assert (Hedge : forall o, In o (obstacles a) ->
            onScreen (shiftObstacle (GameState.speed (gameState a)) o)
            = negb (Obstacle.x (shiftObstacle (GameState.speed (gameState a)) o)
                    + Obstacle.width
                        (shiftObstacle (GameState.speed (gameState a)) o)
                    <=? 0)%float).
  { intros o Ho. apply onScreen_negb_leb, numericObstacle_edge.
    apply shiftObstacle_numeric; [exact Hs|apply Hnum, Ho]. }
  assert (Hfilter :
    scrollObstacles (GameState.speed (gameState a)) (obstacles a)
    = filter (fun o' => negb (Obstacle.x o' + Obstacle.width o' <=? 0)%float)
        (map (shiftObstacle (GameState.speed (gameState a))) (obstacles a))).
  { unfold scrollObstacles. apply filter_ext_in. intros o' Ho'.
    apply in_map_iff in Ho'. destruct Ho' as (o & <- & Ho). apply Hedge, Ho. }
  assert (Hall : forall o, In o (obstacles a) ->
    let o' := shiftObstacle (GameState.speed (gameState a)) o in
    Obstacle.x o' = (Obstacle.x o - GameState.speed (gameState a))%float
    /\ Obstacle.y o' = Obstacle.y o
    /\ Obstacle.width o' = Obstacle.width o
    /\ Obstacle.height o' = Obstacle.height o
    /\ Obstacle.type o' = Obstacle.type o
    /\ (In o' (scrollObstacles (GameState.speed (gameState a)) (obstacles a))
        <-> (Obstacle.x o' + Obstacle.width o' <=? 0)%float = false)).
  { intros o Ho o'. repeat split; try reflexivity.
    - intros Hin. apply filter_In in Hin. destruct Hin as [_ Hon].
      unfold o' in Hon. rewrite (Hedge o Ho) in Hon.
      apply negb_true_iff in Hon. exact Hon.
    - intros Hle. apply filter_In. split.
      + apply in_map. exact Ho.
      + unfold o'. rewrite (Hedge o Ho). apply negb_true_iff. exact Hle. }
  destruct Hu as [(_ & -> & _)|(_ & o & Hgen & -> & _)].
  - exists []. rewrite app_nil_r.
    split; [exact Hfilter|split; [left; reflexivity|exact Hall]].
  - exists [o].
    split; [rewrite Hfilter; reflexivity|].
    split; [right; exists o; split; [assumption|reflexivity]|exact Hall].
Qed.

(** ** Spawning *)

(** C9.  With the clock and the random draws as inputs: a tick while
    Playing appends one obstacle exactly when [now - lastObstacleRef]
    exceeds [800 * max(0.3, 1 - (speed - 4) * 0.1) + draw * 400]; that
    obstacle carries one of the six presets of [types], has [x = 800] and
    stands on the ground line ([y + height = 320]).  Over the speeds of a
    round the factor [max(0.3, 1 - (speed - 4) * 0.1)] lies between 0.3 and
    1, is 1 at speed 4 and 0.3 at the cap, and does not grow with the
    speed. *)
Theorem spawn_rule (e : Env) (a a' : App) :
  reachable a -> playing a = true -> gameLoop e a = Some a' ->
  spawnDue (GameState.speed (gameState a)) (lastObstacleRef a) e
  = (800 * Math.max 0.3 (1 - (GameState.speed (gameState a) - 4) * 0.1)
     + jitterDraw e * 400 <? now e - lastObstacleRef a)%float
  /\ (spawnDue (GameState.speed (gameState a)) (lastObstacleRef a) e = false ->
      obstacles a'
      = scrollObstacles (GameState.speed (gameState a)) (obstacles a)
      /\ lastObstacleRef a' = lastObstacleRef a)
  /\ (spawnDue (GameState.speed (gameState a)) (lastObstacleRef a) e = true ->
      exists o,
        obstacles a'
        = scrollObstacles (GameState.speed (gameState a)) (obstacles a) ++ [o]
        /\ lastObstacleRef a' = now e
        /\ generateObstacle (typeDraw e) = Some o
        /\ In (Obstacle.type o, Obstacle.width o, Obstacle.height o) types
        /\ Obstacle.x o = 800%float
        /\ (Obstacle.y o + Obstacle.height o)%float = groundLine)
  /\ (0.3 <=? speedMultiplier (GameState.speed (gameState a)))%float = true
  /\ (speedMultiplier (GameState.speed (gameState a)) <=? 1)%float = true
  /\ speedMultiplier 4 = 1%float
  /\ speedMultiplier 12 = 0.3%float
  /\ (forall b, reachable b ->
        (GameState.speed (gameState a) <=? GameState.speed (gameState b))%float
        = true ->
        (speedMultiplier (GameState.speed (gameState b))
         <=? speedMultiplier (GameState.speed (gameState a)))%float = true).
Proof.
  intros Hr Hp Ht.
  destruct (gameLoop_playing e a a' Hp Ht) as (obs & last & Hu & ->); simpl.
  apply updateObstacles_cases in Hu.
  destruct (reachable_orbits a Hr) as [Hs _].
  assert (Hm : multiplierCheck (GameState.speed (gameState a)) = true).
  { revert Hs. apply (speeds_forall multiplierCheck). vm_compute; reflexivity. }
  apply andb_true_iff in Hm. destruct Hm as [Hlo Hhi].
  split; [reflexivity|].
  split; [|split; [|split; [exact Hlo|split; [exact Hhi|split;
    [vm_compute; reflexivity|split; [vm_compute; reflexivity|]]]]]].
  - intros Hd. destruct Hu as [(_ & -> & ->)|(Hd' & _)]; [split; reflexivity|].
    congruence.
  - intros Hd. destruct Hu as [(Hd' & _)|(_ & o & Hg & -> & ->)]; [congruence|].
    exists o. destruct (generateObstacle_preset _ _ Hg) as (H1 & H2 & H3).
    repeat split; assumption.
  - intros b Hb Hle. destruct (reachable_orbits b Hb) as [Hsb _].
    assert (Ha : multiplierAntitone speeds (GameState.speed (gameState a)) = true).
    { revert Hs. apply (speeds_forall (multiplierAntitone speeds)).
      vm_compute; reflexivity. }
    unfold multiplierAntitone in Ha.
    pose proof (proj1 (forallb_forall _ _) Ha _ Hsb) as Hi.
    simpl in Hi. rewrite Hle in Hi. exact Hi.
Qed.

(** ** Runs without a collision *)

Lemma iter_fixed {A : Type} (f : A -> A) (n : nat) (x : A) :
  f x = x -> iter f n x = x.
Proof. intros H. induction n as [|n IH]; simpl; [reflexivity|]. rewrite H. exact IH. Qed.

Lemma iter_add {A : Type} (f : A -> A) (n m : nat) (x : A) :
  iter f (n + m) x = iter f m (iter f n x).
Proof. revert x. induction n as [|n IH]; intros x; simpl; [reflexivity|apply IH]. Qed.

Lemma frame_over (e : Env) (a : App) :
  GameState.isGameOver (gameState a) = true -> frame e a = Some a.
Proof.
  intros H. unfold frame. rewrite (gameLoop_over e a H). simpl.
  unfold collisionEffect. rewrite H, orb_true_r. reflexivity.
Qed.

Lemma run_over (es : list Env) (a : App) :
  GameState.isGameOver (gameState a) = true -> run es a = Some a.
Proof.
  intros H. induction es as [|e es IH]; simpl; [reflexivity|].
  rewrite (frame_over e a H). exact IH.
Qed.

Lemma run_app (es1 es2 : list Env) (a a' : App) :
  run (es1 ++ es2) a = Some a' ->
  exists m, run es1 a = Some m /\ run es2 m = Some a'.
Proof.
  revert a. induction es1 as [|e es1 IH]; intros a H; simpl in *.
  - exists a. split; [reflexivity|exact H].
  - destruct (frame e a) as [a1|]; [|discriminate]. apply IH, H.
Qed.

Lemma run_not_over_before (es : list Env) (m a' : App) :
  run es m = Some a' -> GameState.isGameOver (gameState a') = false ->
  GameState.isGameOver (gameState m) = false.
Proof.
  intros H Hn. destruct (GameState.isGameOver (gameState m)) eqn:E; [|reflexivity].
  rewrite (run_over es m E) in H. injection H as <-. congruence.
Qed.

Lemma frame_playing (e : Env) (a a1 : App) :
  playing a = true -> frame e a = Some a1 ->
  GameState.isPlaying (gameState a1) = true
  /\ GameState.score (gameState a1) = (GameState.score (gameState a) + 1)%Z
  /\ GameState.speed (gameState a1) = rampSpeed (GameState.speed (gameState a))
  /\ player a1 = updatePlayer (animationFrameRef a + 1) (player a).
Proof.
  intros Hp H. unfold frame in H.
  destruct (gameLoop e a) as [a2|] eqn:Ht; [|discriminate].
  injection H as <-.
  destruct (gameLoop_playing e a a2 Hp Ht) as (obs & last & _ & ->).
  rewrite collisionEffect_eq. simpl.
  unfold playing in Hp. apply andb_true_iff in Hp. destruct Hp as [Hp _].
  repeat split. exact Hp.
Qed.

(** A run that does not end in GameOver: every refresh was a Playing
    tick without a collision. *)
Lemma run_quiet (es : list Env) (a a' : App) :
  GameState.isPlaying (gameState a) = true ->
  run es a = Some a' -> GameState.isGameOver (gameState a') = false ->
  GameState.isPlaying (gameState a') = true
  /\ GameState.score (gameState a')
     = (GameState.score (gameState a) + Z.of_nat (length es))%Z
  /\ GameState.speed (gameState a')
     = iter rampSpeed (length es) (GameState.speed (gameState a))
  /\ pose (player a') = iter (updatePlayer 0) (length es) (pose (player a)).
Proof.
  revert a. induction es as [|e es IH]; intros a Hplay H Hn.
  - injection H as <-. repeat split; [exact Hplay|simpl; lia].
  - pose proof (run_not_over_before _ _ _ H Hn) as Ha.
    assert (Hp : playing a = true) by (unfold playing; rewrite Hplay, Ha; reflexivity).
    change (run (e :: es) a) with
      (match frame e a with Some a1 => run es a1 | None => None end) in H.
    destruct (frame e a) as [a1|] eqn:F; [|discriminate].
    destruct (frame_playing e a a1 Hp F) as (H1 & H2 & H3 & H4).
    destruct (IH a1 H1 H Hn) as (I1 & I2 & I3 & I4).
    split; [exact I1|]. split; [|split].
    + rewrite I2, H2. change (length (e :: es)) with (S (length es)). lia.
    + rewrite I3, H3. reflexivity.
    + rewrite I4, H4, pose_updatePlayer. reflexivity.
Qed.

(** C7, as stated, fails on the speed: after 200 ticks from a fresh game,
    with no jump and no collision, the score is 200 but the speed is not
    the number 4.4. *)
Lemma quiet_round_speed_differs_from_4_4 :
  option_map (fun a => (GameState.isGameOver (gameState a),
                        GameState.score (gameState a),
                        (GameState.speed (gameState a) =? 4.4)%float))
             quietRound
  = Some (false, 200%Z, false).
Proof. vm_compute. reflexivity. Qed.

(** C7, amended.  From a fresh game, 200 ticks with no jump and no
    collision: after every tick the player is on the ground and the score
    is the number of ticks so far; at the end the score is 200, the
    displayed score 20, and the speed is the binary64 sum of 4 and two
    hundred increments of 0.002, which is 4.3999999999999559: below 4.4 by
    less than 1e-13. *)
Theorem two_hundred_quiet_ticks (t : float) (a0 : App) (es : list Env) (a' : App) :
  length es = 200%nat ->
  run es (startGame t a0) = Some a' ->
  GameState.isGameOver (gameState a') = false ->
  (forall k, (k <= 200)%nat ->
     exists ak, run (firstn k es) (startGame t a0) = Some ak
                /\ Player.onGround (player ak) = true
                /\ GameState.score (gameState ak) = Z.of_nat k)
  /\ Player.onGround (player a') = true
  /\ GameState.score (gameState a') = 200%Z
  /\ displayedScore (gameState a') = 20%Z
  /\ GameState.speed (gameState a') = 4.3999999999999559%float
  /\ (GameState.speed (gameState a') <? 4.4)%float = true
  /\ (4.4 - GameState.speed (gameState a') <? 1e-13)%float = true.
Proof.
  intros Hlen Hrun Hn.
  assert (Hrest : forall n, iter (updatePlayer 0) n (pose (player (startGame t a0)))
                            = initialPlayer).
  { intros n. apply iter_fixed. vm_compute. reflexivity. }
  assert (Hany : forall l b, run l (startGame t a0) = Some b ->
            GameState.isGameOver (gameState b) = false ->
            Player.onGround (player b) = true
            /\ GameState.score (gameState b) = Z.of_nat (length l)
            /\ GameState.speed (gameState b) = iter rampSpeed (length l) 4%float).
  { intros l b Hl Hb.
    destruct (run_quiet l (startGame t a0) b eq_refl Hl Hb) as (_ & S1 & S2 & S3).
    rewrite Hrest in S3. split; [|split; [exact S1|exact S2]].
    change (Player.onGround (pose (player b)) = true). rewrite S3. reflexivity. }
  split.
  - intros k Hk.
    rewrite <- (firstn_skipn k es) in Hrun.
    destruct (run_app _ _ _ _ Hrun) as (m & Hm1 & Hm2).
    pose proof (run_not_over_before _ _ _ Hm2 Hn) as Hm.
    destruct (Hany _ _ Hm1 Hm) as (G1 & G2 & _).
    exists m. split; [exact Hm1|split; [exact G1|]].
    rewrite G2, length_firstn, Hlen. f_equal. lia.
  - destruct (Hany _ _ Hrun Hn) as (G1 & G2 & G3). rewrite Hlen in G2, G3.
    assert (E : GameState.speed (gameState a') = 4.3999999999999559%float)
      by (rewrite G3; vm_compute; reflexivity).
    split; [exact G1|]. split; [exact G2|].
    split; [unfold displayedScore; rewrite G2; reflexivity|].
    split; [exact E|]. rewrite E. split; vm_compute; reflexivity.
Qed.

(** ** The jump arc *)

Lemma arc_airborne (n : nat) :
  (n < 39)%nat ->
  Player.onGround (iter (updatePlayer 0) n (jumpPlayer initialPlayer)) = false
  /\ ((1 <= n)%nat ->
      (Player.y (iter (updatePlayer 0) n (jumpPlayer initialPlayer))
       <? groundClamp (iter (updatePlayer 0) n (jumpPlayer initialPlayer)))%float
      = true).
Proof.
  intros H.
  do 39 (destruct n as [|n];
         [split; [vm_compute; reflexivity|intros H1; try lia; vm_compute; reflexivity]|]).
  lia.
Qed.

Lemma arc_landed (n : nat) :
  (39 <= n)%nat ->
  iter (updatePlayer 0) n (jumpPlayer initialPlayer) = initialPlayer.
Proof.
  intros H. replace n with (39 + (n - 39))%nat by lia.
  rewrite iter_add.
  replace (iter (updatePlayer 0) 39 (jumpPlayer initialPlayer))
    with initialPlayer by (vm_compute; reflexivity).
  apply iter_fixed. vm_compute. reflexivity.
Qed.

Lemma poses_grounded (p : Player.t) :
  In p poses -> Player.onGround p = true -> p = initialPlayer.
Proof.
  intros H E. vm_compute in H.
  repeat (destruct H as [<-|H]; [try discriminate E; reflexivity|]).
  contradiction.
Qed.

(** C8.  A tick first adds gravity to the velocity and then adds the new
    velocity to [y]; the result is kept unless it reaches the clamp, where
    the player lands.  From any reachable Playing state with the player
    on the ground, one jump gives velocity -16 and on-ground false at
    once; with no collision the player is then in the air, above the
    clamp, after each of the next 38 ticks, and on the ground, at the
    clamp with velocity 0, after the 39th and from then on. *)
Theorem jump_arc (a : App) :
  reachable a -> playing a = true -> Player.onGround (player a) = true ->
  (forall k p,
     updatePlayer k p
     = if (groundClamp p
           <=? Player.y p + (Player.velocityY p + GRAVITY))%float
       then Player.mk (Player.x p) (groundClamp p) (Player.width p)
                      (Player.height p) 0 false true k
       else Player.mk (Player.x p)
                      (Player.y p + (Player.velocityY p + GRAVITY))
                      (Player.width p) (Player.height p)
                      (Player.velocityY p + GRAVITY)
                      (Player.isJumping p) false k)
  /\ Player.onGround (player (jump a)) = false
  /\ Player.velocityY (player (jump a)) = (-16)%float
  /\ (forall es a',
        run es (jump a) = Some a' ->
        GameState.isGameOver (gameState a') = false ->
        ((length es < 39)%nat -> Player.onGround (player a') = false)
        /\ ((1 <= length es < 39)%nat ->
            (Player.y (player a') <? groundClamp (player a'))%float = true)
        /\ ((39 <= length es)%nat ->
            Player.onGround (player a') = true
            /\ Player.velocityY (player a') = 0%float
            /\ Player.y (player a') = groundClamp (player a'))).
Proof.
  intros Hr Hpl Hog.
  assert (Hrest : pose (player a) = initialPlayer).
  { apply poses_grounded; [exact (proj2 (reachable_orbits a Hr))|exact Hog]. }
  assert (Hj : jump a = mkApp (gameState a) (jumpPlayer (player a)) (obstacles a)
                          (lastObstacleRef a) (groundOffsetRef a)
                          (animationFrameRef a)).
  { unfold jump. rewrite guard_playing, Hpl. reflexivity. }
  assert (Hplay : GameState.isPlaying (gameState (jump a)) = true).
  { rewrite Hj. cbn [gameState]. unfold playing in Hpl.
    apply andb_true_iff in Hpl. exact (proj1 Hpl). }
  assert (Hp0 : pose (player (jump a)) = jumpPlayer initialPlayer).
  { rewrite Hj. cbn [player]. rewrite pose_jumpPlayer, Hrest. reflexivity. }
  split; [intros k p; reflexivity|].
  split; [change (Player.onGround (pose (player (jump a))) = false);
          rewrite Hp0; reflexivity|].
  split; [change (Player.velocityY (pose (player (jump a))) = (-16)%float);
          rewrite Hp0; reflexivity|].
  intros es a' Hrun Hn.
  destruct (run_quiet es (jump a) a' Hplay Hrun Hn) as (_ & _ & _ & Hp).
  rewrite Hp0 in Hp.
  change (Player.onGround (player a')) with (Player.onGround (pose (player a'))).
  change (Player.velocityY (player a')) with (Player.velocityY (pose (player a'))).
  change (Player.y (player a')) with (Player.y (pose (player a'))).
  change (groundClamp (player a')) with (groundClamp (pose (player a'))).
  rewrite Hp. split; [|split].
  - intros H. apply arc_airborne, H.
  - intros [H1 H2]. apply arc_airborne; assumption.
  - intros H. rewrite (arc_landed _ H). repeat split.
Qed.

(** ** Instances

    Each theorem above that has hypotheses, applied to one of the sample
    rounds. *)

Lemma run_reachable (es : list Env) (a a' : App) :
  reachable a -> run es a = Some a' -> reachable a'.
Proof.
  revert a. induction es as [|e es IH]; intros a Hr H.
  - injection H as <-. exact Hr.
  - change (run (e :: es) a) with
      (match frame e a with Some a1 => run es a1 | None => None end) in H.
    unfold frame in H. destruct (gameLoop e a) as [a1|] eqn:Ht; [|discriminate].
    apply (IH (collisionEffect a1)); [|exact H].
    apply reach_collide, (reach_tick e a a1 Hr Ht).
Qed.

Lemma takeoff_reachable : reachable takeoff.
Proof. exact (reach_jump _ (reach_start 0 initialApp reach_mount)). Qed.

Lemma approachRound_runs :
  run (spawnEnv :: repeat quietEnv 162) (startGame 0 initialApp)
  = Some approachState.
Proof. vm_compute; reflexivity. Qed.

Lemma passingRound_runs :
  run (repeat quietEnv 34) (jump approachState) = Some passingState.
Proof. vm_compute; reflexivity. Qed.

Lemma fresh_reachable : reachable (startGame 0 initialApp).
Proof. exact (reach_start 0 initialApp reach_mount). Qed.

Lemma passingState_reachable : reachable passingState.
Proof.
  exact (run_reachable (repeat quietEnv 34) (jump approachState) passingState
           (reach_jump approachState
              (run_reachable (spawnEnv :: repeat quietEnv 162)
                 (startGame 0 initialApp) approachState
                 fresh_reachable approachRound_runs))
           passingRound_runs).
Qed.

Lemma takeoff_tick : gameLoop quietEnv takeoff = Some risingState.
Proof. vm_compute; reflexivity. Qed.

Lemma passingState_tick : gameLoop lateEnv passingState = Some passedState.
Proof. vm_compute; reflexivity. Qed.

Lemma quietRound_runs :
  run (repeat quietEnv 200) (startGame 0 initialApp) = Some quietState.
Proof. vm_compute; reflexivity. Qed.

Lemma tick_player_at_or_above_clamp_witness :
  reachable takeoff /\ playing takeoff = true
  /\ gameLoop quietEnv takeoff = Some risingState
  /\ (Player.y (player risingState) <=? groundClamp (player risingState))%float
     = true
  /\ Player.onGround (player risingState)
     = (Player.y (player risingState) =? groundClamp (player risingState))%float
  /\ (Player.onGround (player risingState) = true ->
      Player.velocityY (player risingState) = 0%float
      /\ Player.y (player risingState) = groundClamp (player risingState)).
Proof.
  split; [exact takeoff_reachable|]. split; [reflexivity|].
  split; [exact takeoff_tick|].
  exact (tick_player_at_or_above_clamp quietEnv takeoff risingState
           takeoff_reachable eq_refl takeoff_tick).
Defined.

Lemma tick_scrolls_obstacles_witness :
  reachable passingState /\ playing passingState = true
  /\ gameLoop lateEnv passingState = Some passedState
  /\ length (obstacles passingState) = 1%nat
  /\ exists spawned,
       obstacles passedState
       = filter (fun o' => negb (Obstacle.x o' + Obstacle.width o' <=? 0)%float)
           (map (shiftObstacle (GameState.speed (gameState passingState)))
                (obstacles passingState))
         ++ spawned
       /\ (spawned = []
           \/ exists o, generateObstacle (typeDraw lateEnv) = Some o
                        /\ spawned = [o]).
Proof.
  split; [exact passingState_reachable|]. split; [reflexivity|].
  split; [exact passingState_tick|]. split; [reflexivity|].
  destruct (tick_scrolls_obstacles lateEnv passingState passedState
              passingState_reachable eq_refl passingState_tick)
    as (spawned & H1 & H2 & _).
  exists spawned. split; [exact H1|exact H2].
Defined.


Lemma two_hundred_quiet_ticks_witness :
  length (repeat quietEnv 200) = 200%nat
  /\ run (repeat quietEnv 200) (startGame 0 initialApp) = Some quietState
  /\ GameState.isGameOver (gameState quietState) = false
  /\ Player.onGround (player quietState) = true
  /\ GameState.score (gameState quietState) = 200%Z
  /\ displayedScore (gameState quietState) = 20%Z
  /\ GameState.speed (gameState quietState) = 4.3999999999999559%float.
Proof.
  split; [reflexivity|]. split; [exact quietRound_runs|]. split; [reflexivity|].
  destruct (two_hundred_quiet_ticks 0 initialApp (repeat quietEnv 200) quietState
              eq_refl quietRound_runs eq_refl) as (_ & H1 & H2 & H3 & H4 & _).
  repeat split; assumption.
Defined.

Lemma spawn_rule_witness :
  reachable passingState /\ playing passingState = true
  /\ gameLoop lateEnv passingState = Some passedState
  /\ spawnDue (GameState.speed (gameState passingState))
              (lastObstacleRef passingState) lateEnv = true
  /\ exists o,
       obstacles passedState
       = scrollObstacles (GameState.speed (gameState passingState))
                         (obstacles passingState) ++ [o]
       /\ lastObstacleRef passedState = now lateEnv
       /\ In (Obstacle.type o, Obstacle.width o, Obstacle.height o) types
       /\ Obstacle.x o = 800%float
       /\ (Obstacle.y o + Obstacle.height o)%float = groundLine.
Proof.
  split; [exact passingState_reachable|]. split; [reflexivity|].
  split; [exact passingState_tick|]. split; [reflexivity|].
  destruct (spawn_rule lateEnv passingState passedState
              passingState_reachable eq_refl passingState_tick)
    as (_ & _ & H & _).
  destruct (H eq_refl) as (o & H1 & H2 & _ & H4 & H5 & H6).
  exists o. repeat split; assumption.
Defined.

Lemma approachState_reachable : reachable approachState.
Proof.
  exact (run_reachable (spawnEnv :: repeat quietEnv 162)
           (startGame 0 initialApp) approachState
           fresh_reachable approachRound_runs).
Qed.

Lemma landedState_runs :
  run (repeat quietEnv 39) (jump approachState) = Some landedState.
Proof. vm_compute; reflexivity. Qed.

Lemma jump_arc_witness :
  reachable approachState /\ playing approachState = true
  /\ Player.onGround (player approachState) = true
  /\ GameState.score (gameState approachState) = 163%Z
  /\ Player.onGround (player (jump approachState)) = false
  /\ run (repeat quietEnv 34) (jump approachState) = Some passingState
  /\ Player.onGround (player passingState) = false
  /\ run (repeat quietEnv 39) (jump approachState) = Some landedState
  /\ GameState.isGameOver (gameState landedState) = false
  /\ Player.onGround (player landedState) = true
  /\ Player.y (player landedState) = groundClamp (player landedState).
Proof.
  split; [exact approachState_reachable|]. split; [reflexivity|].
  split; [reflexivity|]. split; [reflexivity|].
  destruct (jump_arc approachState approachState_reachable eq_refl eq_refl)
    as (_ & H1 & _ & H).
  split; [exact H1|]. split; [exact passingRound_runs|].
  split.
  { apply (proj1 (H (repeat quietEnv 34) passingState passingRound_runs eq_refl)).
    vm_compute. lia. }
  split; [exact landedState_runs|]. split; [reflexivity|].
  destruct (proj2 (proj2 (H (repeat quietEnv 39) landedState landedState_runs
                            eq_refl))) as (A & _ & B).
  { vm_compute. lia. }
  split; [exact A|exact B].
Defined.


(** * Further properties of the component *)

(** ** A tick never throws *)

Lemma unitDraw_bounds (r : float) :
  unitDraw r = true -> (0 <=? r)%float = true /\ (r <? 1)%float = true.
Proof. unfold unitDraw. intros H. apply andb_true_iff in H. exact H. Qed.

(** X1.  For every draw in [[0, 1)], [generateObstacle] indexes inside its
    table: it returns an obstacle, of one of the six presets, and never
    reads a field of [undefined]. *)
Theorem generateObstacle_never_throws (random : float) :
  unitDraw random = true ->
  exists o, generateObstacle random = Some o
            /\ In (Obstacle.type o, Obstacle.width o, Obstacle.height o) types.
Proof.
  intros H. destruct (unitDraw_bounds random H) as [H0 H1].
  destruct (floor_draw random H0 H1) as (i & Hi & Hr).
  assert (Hex : exists o, generateObstacle random = Some o).
  { unfold generateObstacle. rewrite Hi.
    assert (C : (i = 0 \/ i = 1 \/ i = 2 \/ i = 3 \/ i = 4 \/ i = 5)%Z) by lia.
    destruct C as [->|[->|[->|[->|[->| ->]]]]]; eexists; reflexivity. }
  destruct Hex as (o & Ho). exists o. split; [exact Ho|].
  exact (proj1 (generateObstacle_preset random o Ho)).
Qed.

Lemma generateObstacle_never_throws_witness :
  unitDraw 0.5 = true
  /\ exists o, generateObstacle 0.5 = Some o
               /\ In (Obstacle.type o, Obstacle.width o, Obstacle.height o) types.
Proof.
  split; [reflexivity|]. exact (generateObstacle_never_throws 0.5 eq_refl).
Defined.

Lemma gameLoop_total (e : Env) (a : App) :
  unitDraw (typeDraw e) = true -> exists a', gameLoop e a = Some a'.
Proof.
  intros H. destruct (generateObstacle_never_throws (typeDraw e) H) as (o & Ho & _).
  unfold gameLoop. destruct (_ || _); [eexists; reflexivity|].
  unfold updateObstacles. rewrite Ho.
  destruct (spawnDue _ _ _); eexists; reflexivity.
Qed.

(** X2.  With every type draw in [[0, 1)], any sequence of refreshes runs
    to a state, from any state: neither [gameLoop] nor the collision
    effect throws. *)
Theorem run_never_throws (es : list Env) (a : App) :
  Forall (fun e => unitDraw (typeDraw e) = true) es ->
  exists a', run es a = Some a'.
Proof.
  intros H. revert a. induction H as [|e es He _ IH]; intros a.
  - exists a. reflexivity.
  - destruct (gameLoop_total e a He) as (a1 & H1).
    destruct (IH (collisionEffect a1)) as (a' & Ha').
    exists a'. simpl. unfold frame. rewrite H1. exact Ha'.
Qed.

Lemma run_never_throws_witness :
  Forall (fun e => unitDraw (typeDraw e) = true) [spawnEnv; quietEnv; lateEnv]
  /\ exists a', run [spawnEnv; quietEnv; lateEnv] takeoff = Some a'.
Proof.
  assert (H : Forall (fun e => unitDraw (typeDraw e) = true)
                [spawnEnv; quietEnv; lateEnv])
    by (repeat constructor).
  split; [exact H|]. exact (run_never_throws _ takeoff H).
Defined.

(** X3.  For a draw in [[0, 1)] the jitter [draw * 400] of the spawn
    interval is at least 0 and below 400, and the table index
    [draw * 6] at least 0 and below 6, in binary64 arithmetic. *)
Theorem draw_products_in_range (r : float) :
  unitDraw r = true ->
  (0 <=? r * 400)%float = true /\ (r * 400 <? 400)%float = true
  /\ (0 <=? r * 6)%float = true /\ (r * 6 <? 6)%float = true.
Proof.
  intros H. destruct (unitDraw_bounds r H) as [H0 H1].
  destruct (mul_draw_range 400 7036874417766400 (-44) eq_refl
              ltac:(split; reflexivity) ltac:(lia) r H0 H1) as [A B].
  destruct (mul_draw_range 6 6755399441055744 (-50) eq_refl
              ltac:(split; reflexivity) ltac:(lia) r H0 H1) as [C D].
  repeat split; assumption.
Qed.

Lemma draw_products_in_range_witness :
  unitDraw 0.99999999999999989 = true
  /\ (0.99999999999999989 * 400 <? 400)%float = true
  /\ (0.99999999999999989 * 6 <? 6)%float = true.
Proof.
  split; [reflexivity|].
  destruct (draw_products_in_range 0.99999999999999989 eq_refl)
    as (_ & A & _ & B).
  split; assumption.
Defined.

(** ** Bookkeeping kept by every reachable state *)

(** X4.  In every reachable state the score is a tick count: it is not
    negative, [animationFrameRef] and the player's [animFrame] equal it,
    and the speed is the ramp applied that many times to the initial speed
    4.  GameOver is only ever set on a started game. *)
Theorem reachable_bookkeeping (a : App) :
  reachable a ->
  (0 <= GameState.score (gameState a))%Z
  /\ animationFrameRef a = GameState.score (gameState a)
  /\ Player.animFrame (player a) = GameState.score (gameState a)
  /\ GameState.speed (gameState a)
     = iter rampSpeed (Z.to_nat (GameState.score (gameState a))) INITIAL_SPEED
  /\ (GameState.isGameOver (gameState a) = true ->
      GameState.isPlaying (gameState a) = true).
Proof.
  induction 1 as [|t a _ IH|a _ IH|e a a' _ IH Ht|a _ IH].
  - repeat split; try reflexivity; try lia. discriminate.
  - unfold startCommand. destruct (overlayShown a); [|exact IH].
    repeat split; try reflexivity; lia.
  - unfold jump. destruct (_ || _); [exact IH|].
    destruct IH as (I1 & I2 & I3 & I4 & I5).
    cbn [gameState player animationFrameRef].
    repeat split; try assumption.
    unfold jumpPlayer. destruct (Player.onGround (player a)); exact I3.
  - destruct (playing a) eqn:Hp.
    + destruct (gameLoop_playing e a a' Hp Ht) as (obs & last & _ & ->).
      destruct IH as (I1 & I2 & I3 & I4 & I5).
      cbn [gameState player animationFrameRef updateGameState
           GameState.score GameState.speed GameState.isPlaying
           GameState.isGameOver].
      split; [lia|]. split; [lia|]. split.
      { unfold updatePlayer. destruct (_ <=? _)%float; cbn [Player.animFrame]; lia. }
      split; [|exact I5].
      replace (Z.to_nat (GameState.score (gameState a) + 1))
        with (S (Z.to_nat (GameState.score (gameState a)))) by lia.
      rewrite iter_succ, <- I4. reflexivity.
    + rewrite (gameLoop_not_playing e a Hp) in Ht. injection Ht as <-. exact IH.
  - rewrite collisionEffect_eq. destruct IH as (I1 & I2 & I3 & I4 & I5).
    cbn [gameState player animationFrameRef GameState.score GameState.speed
         GameState.isPlaying GameState.isGameOver].
    repeat split; try assumption.
    intros H. apply orb_true_iff in H. destruct H as [H|H]; [exact (I5 H)|].
    apply andb_true_iff in H. destruct H as [H _].
    unfold playing in H. apply andb_true_iff in H. exact (proj1 H).
Qed.

Lemma reachable_bookkeeping_witness :
  reachable passingState
  /\ animationFrameRef passingState = GameState.score (gameState passingState)
  /\ GameState.score (gameState passingState) = 197%Z.
Proof.
  split; [exact passingState_reachable|].
  destruct (reachable_bookkeeping passingState passingState_reachable)
    as (_ & H & _).
  split; [exact H|reflexivity].
Defined.

(** ** The live obstacles *)

(** A property of obstacles that spawning establishes and scrolling at a
    speed of the round keeps holds of every live obstacle. *)
Lemma reachable_obstacles_ind (P : Obstacle.t -> Prop) :
  (forall r o, generateObstacle r = Some o -> P o) ->
  (forall s o, In s speeds -> P o -> P (shiftObstacle s o)) ->
  forall a, reachable a -> Forall P (obstacles a).
Proof.
  intros Hgen Hshift.
  induction 1 as [|t a _ IH|a _ IH|e a a' Hr IH Ht|a _ IH].
  - constructor.
  - unfold startCommand. destruct (overlayShown a); [constructor|exact IH].
  - unfold jump. destruct (_ || _); exact IH.
  - destruct (playing a) eqn:Hp.
    + destruct (gameLoop_playing e a a' Hp Ht) as (obs & last & Hu & ->).
      change (Forall P obs).
      pose proof (proj1 (reachable_orbits a Hr)) as Hs.
      assert (Hsc : Forall P (scrollObstacles (GameState.speed (gameState a))
                                              (obstacles a))).
      { rewrite Forall_forall in *. intros o' Ho'.
        apply filter_In in Ho'. destruct Ho' as [Ho' _].
        apply in_map_iff in Ho'. destruct Ho' as (o & <- & Ho).
        apply Hshift; [exact Hs|apply IH, Ho]. }
      apply updateObstacles_cases in Hu.
      destruct Hu as [(_ & -> & _)|(_ & o & Hg & -> & _)]; [exact Hsc|].
      apply Forall_app. split; [exact Hsc|].
      constructor; [exact (Hgen _ _ Hg)|constructor].
    + rewrite (gameLoop_not_playing e a Hp) in Ht. injection Ht as <-. exact IH.
  - unfold collisionEffect. destruct (_ || _); exact IH.
Qed.

Lemma generateObstacle_y (random : float) (o : Obstacle.t) :
  generateObstacle random = Some o ->
  Obstacle.y o = (CANVAS_HEIGHT - GROUND_HEIGHT - Obstacle.height o)%float.
Proof.
  unfold generateObstacle.
  destruct (index types _) as [[[ty w] h]|]; [|discriminate].
  intros H; injection H as <-. reflexivity.
Qed.

Lemma live_obstacles_numeric_grounded (a : App) (o : Obstacle.t) :
  reachable a -> In o (obstacles a) ->
  In (Obstacle.type o, Obstacle.width o, Obstacle.height o) types
  /\ Obstacle.y o = (CANVAS_HEIGHT - GROUND_HEIGHT - Obstacle.height o)%float.
Proof.
  intros Hr Ho.
  pose proof (reachable_obstacles_ind
    (fun o =>
       In (Obstacle.type o, Obstacle.width o, Obstacle.height o) types
       /\ Obstacle.y o = (CANVAS_HEIGHT - GROUND_HEIGHT - Obstacle.height o)%float))
    as H.
  assert (H1 : Forall (fun o =>
       In (Obstacle.type o, Obstacle.width o, Obstacle.height o) types
       /\ Obstacle.y o = (CANVAS_HEIGHT - GROUND_HEIGHT - Obstacle.height o)%float)
       (obstacles a)).
  { apply H; [| |exact Hr].
    - intros r o0 Hg. split; [exact (proj1 (generateObstacle_preset r o0 Hg))|].
      exact (generateObstacle_y r o0 Hg).
    - intros s o0 _ Ho0. exact Ho0. }
  rewrite Forall_forall in H1. exact (H1 o Ho).
Qed.

(** X5.  Every live obstacle of a reachable state carries one of the six
    presets of [types], stands on the ground line ([y] is 320 minus its
    height, so [y + height] is 320), and has an [x] that is not NaN:
    scrolling changes nothing but [x]. *)
Theorem live_obstacles_grounded (a : App) (o : Obstacle.t) :
  reachable a -> In o (obstacles a) ->
  In (Obstacle.type o, Obstacle.width o, Obstacle.height o) types
  /\ Obstacle.y o = (CANVAS_HEIGHT - GROUND_HEIGHT - Obstacle.height o)%float
  /\ (Obstacle.y o + Obstacle.height o)%float = groundLine
  /\ is_nan (Obstacle.x o) = false.
Proof.
  intros Hr Ho.
  pose proof (reachable_obstacles_ind
    (fun o =>
       In (Obstacle.type o, Obstacle.width o, Obstacle.height o) types
       /\ Obstacle.y o = (CANVAS_HEIGHT - GROUND_HEIGHT - Obstacle.height o)%float
       /\ (Obstacle.y o + Obstacle.height o)%float = groundLine)) as H.
  assert (H1 : Forall (fun o =>
       In (Obstacle.type o, Obstacle.width o, Obstacle.height o) types
       /\ Obstacle.y o = (CANVAS_HEIGHT - GROUND_HEIGHT - Obstacle.height o)%float
       /\ (Obstacle.y o + Obstacle.height o)%float = groundLine) (obstacles a)).
  { apply H; [| |exact Hr].
    - intros r o0 Hg. destruct (generateObstacle_preset r o0 Hg) as (A & _ & B).
      split; [exact A|]. split; [exact (generateObstacle_y r o0 Hg)|exact B].
    - intros s o0 _ Ho0. exact Ho0. }
  rewrite Forall_forall in H1. destruct (H1 o Ho) as (A & B & C).
  pose proof (reachable_obstacles a Hr) as H2. rewrite Forall_forall in H2.
  specialize (H2 o Ho). unfold numericObstacle in H2.
  apply andb_true_iff in H2. destruct H2 as [H2 _]. apply negb_true_iff in H2.
  repeat split; assumption.
Qed.

Lemma live_obstacles_grounded_witness :
  reachable passingState
  /\ exists o, In o (obstacles passingState)
               /\ Obstacle.type o = tree
               /\ (Obstacle.y o + Obstacle.height o)%float = groundLine.
Proof.
  split; [exact passingState_reachable|].
  eexists. split; [left; reflexivity|]. split; [reflexivity|].
  exact (proj1 (proj2 (proj2
           (live_obstacles_grounded passingState _ passingState_reachable
              (or_introl eq_refl))))).
Defined.

(** ** The player's band *)

Lemma poses_sprite (p : Player.t) :
  In p poses ->
  Player.x p = 80%float /\ Player.width p = 28%float
  /\ Player.height p = 40%float.
Proof.
  intros H. vm_compute in H.
  repeat (destruct H as [<-|H]; [repeat split; reflexivity|]).
  contradiction.
Qed.

(** X6.  In every reachable state the player keeps [x = 80], [width = 28]
    and [height = 40]; [y] stays between the apex of the jump, 128, and
    the ground clamp 280; the velocity stays between -16 and 16; and
    [isJumping] is the negation of [onGround]. *)
Theorem player_stays_in_band (a : App) :
  reachable a ->
  Player.x (player a) = 80%float /\ Player.width (player a) = 28%float
  /\ Player.height (player a) = 40%float
  /\ (128 <=? Player.y (player a))%float = true
  /\ (Player.y (player a) <=? 280)%float = true
  /\ (-16 <=? Player.velocityY (player a))%float = true
  /\ (Player.velocityY (player a) <=? 16)%float = true
  /\ Player.isJumping (player a) = negb (Player.onGround (player a)).
Proof.
  intros Hr. destruct (reachable_orbits a Hr) as [_ Hp].
  destruct (poses_sprite _ Hp) as (A & B & C).
  assert (Hb : bandCheck (pose (player a)) = true).
  { revert Hp. apply (poses_forall bandCheck). vm_compute; reflexivity. }
  unfold bandCheck in Hb. repeat (apply andb_true_iff in Hb; destruct Hb as [Hb ?]).
  split; [exact A|]. split; [exact B|]. split; [exact C|].
  repeat split; try assumption.
  apply Bool.eqb_prop. assumption.
Qed.

Lemma player_stays_in_band_witness :
  reachable passingState
  /\ (128 <=? Player.y (player passingState))%float = true
  /\ (Player.y (player passingState) <=? 280)%float = true.
Proof.
  split; [exact passingState_reachable|].
  destruct (player_stays_in_band passingState passingState_reachable)
    as (_ & _ & _ & A & B & _).
  split; assumption.
Defined.

(** ** Obstacles beside the hitbox *)

Lemma leb_not_ltb (x y : float) :
  (x <=? y)%float = true -> (y <? x)%float = false.
Proof.
  rewrite leb_spec, ltb_spec. unfold SFleb, SFltb.
  rewrite (SFcompare_swap (Prim2SF x) (Prim2SF y)).
  destruct (SFcompare (Prim2SF x) (Prim2SF y)) as [[]|]; simpl;
    intros H; try reflexivity; discriminate.
Qed.

(** X7.  [checkCollision] reports no collision when the obstacle lies
    entirely on one side of the hitbox, touching edges included: its right
    edge at or left of [player.x + 6], its left edge at or right of
    [player.x + player.width - 6], its bottom at or above [player.y + 6],
    or its top at or below the player's bottom edge. *)
Theorem checkCollision_separated (p : Player.t) (o : Obstacle.t) :
  ((Obstacle.x o + Obstacle.width o <=? Player.x p + 6)%float = true ->
   checkCollision p o = false)
  /\ ((Player.x p + Player.width p - 6 <=? Obstacle.x o)%float = true ->
      checkCollision p o = false)
  /\ ((Obstacle.y o + Obstacle.height o <=? Player.y p + 6)%float = true ->
      checkCollision p o = false)
  /\ ((Player.y p + Player.height p <=? Obstacle.y o)%float = true ->
      checkCollision p o = false).
Proof.
  unfold checkCollision.
  repeat split; intros H; apply leb_not_ltb in H; rewrite H;
    rewrite ?andb_false_r; reflexivity.
Qed.

(** ** Clearing obstacles *)

Lemma clearCheck_poses (p : Player.t) :
  In p poses -> clearCheck p = true.
Proof. apply (poses_forall clearCheck). vm_compute; reflexivity. Qed.

Lemma high_player_no_collision (a : App) :
  reachable a ->
  (Player.y (player a) <=? 224)%float = true ->
  (forall o, In o (obstacles a) -> checkCollision (player a) o = false)
  /\ collisionEffect a = a.
Proof.
  intros Hr Hy.
  destruct (reachable_orbits a Hr) as [_ Hp].
  pose proof (clearCheck_poses _ Hp) as Hc.
  unfold clearCheck in Hc.
  change (Player.y (pose (player a))) with (Player.y (player a)) in Hc.
  rewrite Hy in Hc. cbn [implb] in Hc.
  assert (Hall : forall o, In o (obstacles a) -> checkCollision (player a) o = false).
  { intros o Ho.
    destruct (live_obstacles_numeric_grounded a o Hr Ho) as (Hin & Hyo).
    pose proof (proj1 (forallb_forall _ _) Hc _ Hin) as Ht.
    unfold aboveTop in Ht. apply negb_true_iff in Ht.
    unfold checkCollision. rewrite Hyo.
    change (Player.y (player a) + Player.height (player a))%float
      with (Player.y (pose (player a)) + Player.height (pose (player a)))%float.
    rewrite Ht. apply andb_false_r. }
  split; [exact Hall|].
  rewrite collisionEffect_eq.
  assert (He : existsb (checkCollision (player a)) (obstacles a) = false).
  { apply not_true_is_false. intros E. apply existsb_exists in E.
    destruct E as (o & Ho & Hcol). rewrite (Hall o Ho) in Hcol. discriminate. }
  rewrite He, andb_false_r, orb_false_r.
  destruct a as [[pl ov sc sp] pla obs last off fr]. reflexivity.
Qed.

(** X8.  In a reachable state whose player is at [y <= 224], at least 56
    above the ground clamp, no live obstacle collides, wherever it is: the
    collision effect leaves the state as it is. *)
Theorem high_player_clears_obstacles (a : App) :
  reachable a ->
  (Player.y (player a) <=? 224)%float = true ->
  (forall o, In o (obstacles a) -> checkCollision (player a) o = false)
  /\ collisionEffect a = a.
Proof. exact (high_player_no_collision a). Qed.

Lemma high_player_clears_obstacles_witness :
  reachable passingState
  /\ (Player.y (player passingState) <=? 224)%float = true
  /\ length (obstacles passingState) = 1%nat
  /\ collisionEffect passingState = passingState.
Proof.
  split; [exact passingState_reachable|]. split; [reflexivity|].
  split; [reflexivity|].
  exact (proj2 (high_player_clears_obstacles passingState
                  passingState_reachable eq_refl)).
Defined.

Lemma arc_high (k : nat) :
  (4 <= k <= 34)%nat ->
  (Player.y (iter (updatePlayer 0) k (jumpPlayer initialPlayer)) <=? 224)%float
  = true.
Proof.
  intros H.
  do 35 (destruct k as [|k]; [try lia; vm_compute; reflexivity|]).
  lia.
Qed.

Lemma fresh_any_reachable (t : float) (a0 : App) : reachable (startGame t a0).
Proof. exact (reach_start t initialApp reach_mount). Qed.

Lemma safe_window_run (es : list Env) (k : nat) (b a' : App) :
  (3 <= k)%nat -> (k + length es <= 34)%nat ->
  reachable b -> GameState.isPlaying (gameState b) = true ->
  GameState.isGameOver (gameState b) = false ->
  pose (player b) = iter (updatePlayer 0) k (jumpPlayer initialPlayer) ->
  run es b = Some a' ->
  GameState.isGameOver (gameState a') = false.
Proof.
  revert k b. induction es as [|e es IH]; intros k b Hk Hlen Hr Hplay Hover Hp Hrun.
  - injection Hrun as <-. exact Hover.
  - change (run (e :: es) b) with
      (match frame e b with Some a1 => run es a1 | None => None end) in Hrun.
    unfold frame in Hrun.
    destruct (gameLoop e b) as [b'|] eqn:Ht; [|discriminate].
    cbn [option_map] in Hrun.
    assert (Hpl : playing b = true) by (unfold playing; rewrite Hplay, Hover; reflexivity).
    pose proof (reach_tick e b b' Hr Ht) as Hr'.
    destruct (gameLoop_playing e b b' Hpl Ht) as (obs & last & _ & Eb).
    assert (Hp' : pose (player b')
                  = iter (updatePlayer 0) (S k) (jumpPlayer initialPlayer)).
    { rewrite Eb. cbn [player]. rewrite pose_updatePlayer, Hp, iter_succ. reflexivity. }
    assert (Hy : (Player.y (player b') <=? 224)%float = true).
    { change (Player.y (player b')) with (Player.y (pose (player b'))).
      rewrite Hp'. apply arc_high. cbn [length] in Hlen. lia. }
    destruct (high_player_no_collision b' Hr' Hy) as [_ Hce].
    rewrite Hce in Hrun.
    apply (IH (S k) b'); try assumption.
    + lia.
    + cbn [length] in Hlen. lia.
    + rewrite Eb. exact Hplay.
    + rewrite Eb. exact Hover.
Qed.

(** X9.  A player that has survived the first three ticks of a jump from
    a fresh game survives the next 31, whatever the clock, the draws and
    the obstacles: from the 4th to the 34th tick after take-off no
    collision can end the game. *)
Theorem jump_safe_window (t : float) (a0 : App) (es1 es2 : list Env)
    (a3 a' : App) :
  length es1 = 3%nat -> (length es2 <= 31)%nat ->
  run es1 (jump (startGame t a0)) = Some a3 ->
  GameState.isGameOver (gameState a3) = false ->
  run es2 a3 = Some a' ->
  GameState.isGameOver (gameState a') = false.
Proof.
  intros H1 H2 Hrun1 Hover Hrun2.
  pose proof (reach_jump _ (fresh_any_reachable t a0)) as Hr0.
  pose proof (run_reachable es1 _ a3 Hr0 Hrun1) as Hr3.
  destruct (run_quiet es1 (jump (startGame t a0)) a3 eq_refl Hrun1 Hover)
    as (Hplay & _ & _ & Hp).
  rewrite H1 in Hp.
  apply (safe_window_run es2 3 a3 a'); try assumption; lia.
Qed.

Lemma risenState_runs : run (repeat quietEnv 3) (jump (startGame 0 initialApp))
                        = Some risenState.
Proof. vm_compute; reflexivity. Qed.

Lemma safeState_runs : run (spawnEnv :: repeat quietEnv 30) risenState
                       = Some safeState.
Proof. vm_compute; reflexivity. Qed.

Lemma jump_safe_window_witness :
  length (repeat quietEnv 3) = 3%nat
  /\ (length (spawnEnv :: repeat quietEnv 30) <= 31)%nat
  /\ run (repeat quietEnv 3) (jump (startGame 0 initialApp)) = Some risenState
  /\ GameState.isGameOver (gameState risenState) = false
  /\ run (spawnEnv :: repeat quietEnv 30) risenState = Some safeState
  /\ length (obstacles safeState) = 1%nat
  /\ GameState.isGameOver (gameState safeState) = false.
Proof.
  split; [reflexivity|]. split; [cbn; lia|].
  split; [exact risenState_runs|]. split; [reflexivity|].
  split; [exact safeState_runs|]. split; [reflexivity|].
  apply (jump_safe_window 0 initialApp (repeat quietEnv 3)
           (spawnEnv :: repeat quietEnv 30) risenState safeState).
  - reflexivity.
  - cbn; lia.
  - exact risenState_runs.
  - reflexivity.
  - exact safeState_runs.
Defined.

(** ** Reaching the speed cap *)

Lemma speeds_below_cap (n : nat) :
  (n < 4000)%nat -> (iter rampSpeed n INITIAL_SPEED <? 12)%float = true.
Proof.
  intros H.
  assert (Hall : forallb (fun s => (s <? 12)%float) (firstn 4000 speeds) = true)
    by (vm_compute; reflexivity).
  rewrite <- (orbit_nth rampSpeed 4000 n INITIAL_SPEED 0%float) by lia.
  change (orbit rampSpeed 4000 INITIAL_SPEED) with speeds.
  apply (proj1 (forallb_forall _ _) Hall).
  rewrite <- (firstn_skipn 4000 speeds) at 1.
  assert (Hl : length (firstn 4000 speeds) = 4000%nat) by (vm_compute; reflexivity).
  rewrite app_nth1 by lia. apply nth_In. lia.
Qed.

Lemma speeds_at_cap (n : nat) :
  (4000 <= n)%nat -> iter rampSpeed n INITIAL_SPEED = 12%float.
Proof.
  intros H. replace n with (4000 + (n - 4000))%nat by lia.
  rewrite iter_add.
  replace (iter rampSpeed 4000 INITIAL_SPEED) with 12%float
    by (vm_compute; reflexivity).
  apply iter_fixed. vm_compute; reflexivity.
Qed.

(** X10.  In a round without collision the speed is below 12 after each
    of the first 3999 ticks and is 12 from the 4000th tick on: the cap is
    reached on exactly the 4000th tick, rounding included. *)
Theorem speed_cap_reached_at_tick_4000 (t : float) (a0 : App)
    (es : list Env) (a' : App) :
  run es (startGame t a0) = Some a' ->
  GameState.isGameOver (gameState a') = false ->
  ((length es < 4000)%nat ->
   (GameState.speed (gameState a') <? 12)%float = true)
  /\ ((4000 <= length es)%nat -> GameState.speed (gameState a') = 12%float).
Proof.
  intros Hrun Hover.
  destruct (run_quiet es (startGame t a0) a' eq_refl Hrun Hover)
    as (_ & _ & Hs & _).
  change (GameState.speed (gameState (startGame t a0))) with INITIAL_SPEED in Hs.
  rewrite Hs. split; intros H; [apply speeds_below_cap|apply speeds_at_cap]; exact H.
Qed.

Lemma longRound_runs : run longRound (startGame 0 initialApp) = Some cappedState.
Proof. vm_compute; reflexivity. Qed.

Lemma speed_cap_reached_at_tick_4000_witness :
  run longRound (startGame 0 initialApp) = Some cappedState
  /\ GameState.isGameOver (gameState cappedState) = false
  /\ length longRound = 4000%nat
  /\ GameState.speed (gameState cappedState) = 12%float.
Proof.
  split; [exact longRound_runs|]. split; [reflexivity|].
  assert (Hl : length longRound = 4000%nat) by (vm_compute; reflexivity).
  split; [exact Hl|].
  apply (proj2 (speed_cap_reached_at_tick_4000 0 initialApp longRound cappedState
                  longRound_runs eq_refl)).
  rewrite Hl. apply le_n.
Defined.

(** ** Idle and GameOver *)

(** X11.  While the game is not Playing (Idle, or GameOver), a jump, the
    collision effect, a tick and any sequence of refreshes leave the whole
    state unchanged: only the start command moves such a state. *)
Theorem nothing_moves_unless_playing (a : App) :
  playing a = false ->
  jump a = a /\ collisionEffect a = a
  /\ (forall e, gameLoop e a = Some a)
  /\ (forall es, run es a = Some a).
Proof.
  intros H.
  assert (Hj : jump a = a) by (unfold jump; rewrite guard_playing, H; reflexivity).
  assert (Hc : collisionEffect a = a)
    by (unfold collisionEffect; rewrite guard_playing, H; reflexivity).
  split; [exact Hj|]. split; [exact Hc|].
  split; [intros e; apply gameLoop_not_playing, H|].
  intros es. induction es as [|e es IH]; [reflexivity|].
  cbn [run]. unfold frame. rewrite (gameLoop_not_playing e a H).
  cbn [option_map]. rewrite Hc. exact IH.
Qed.

Lemma nothing_moves_unless_playing_witness :
  playing initialApp = false
  /\ jump initialApp = initialApp
  /\ run [spawnEnv; lateEnv] initialApp = Some initialApp.
Proof.
  split; [reflexivity|].
  destruct (nothing_moves_unless_playing initialApp eq_refl) as (A & _ & _ & B).
  split; [exact A|exact (B [spawnEnv; lateEnv])].
Defined.

(** ** Sound *)

(** X12.  After any number of clicks on the sound button the ref and the
    state carry the same flag, which is true exactly after an even number
    of clicks; so [playSound] is silent exactly when [soundEnabled] is
    false, and two clicks restore the setting. *)
Theorem toggleSound_keeps_ref_in_step (n : nat) :
  soundEnabledRef (iter toggleSound n initialAudio)
  = soundEnabled (iter toggleSound n initialAudio)
  /\ soundEnabled (iter toggleSound n initialAudio) = Nat.even n
  /\ toggleSound (toggleSound (iter toggleSound n initialAudio))
     = iter toggleSound n initialAudio
  /\ (forall ct f d ty,
       playSound (iter toggleSound n initialAudio) ct f d ty = []
       <-> soundEnabled (iter toggleSound n initialAudio) = false).
Proof.
  assert (H : soundEnabledRef (iter toggleSound n initialAudio)
              = soundEnabled (iter toggleSound n initialAudio)
              /\ soundEnabled (iter toggleSound n initialAudio) = Nat.even n).
  { induction n as [|n [IH1 IH2]]; [split; reflexivity|].
    rewrite iter_succ. set (X := iter toggleSound n initialAudio) in *.
    unfold toggleSound. cbn [soundEnabled soundEnabledRef].
    split; [reflexivity|]. rewrite IH2, Nat.even_succ, <- Nat.negb_even. reflexivity. }
  destruct H as [H1 H2]. split; [exact H1|]. split; [exact H2|].
  destruct (iter toggleSound n initialAudio) as [st rf]. cbn in H1. subst rf.
  split.
  - unfold toggleSound. cbn. rewrite negb_involutive. reflexivity.
  - intros ct f d ty. unfold playSound. cbn.
    destruct st; cbn; split; intros E; try reflexivity; discriminate.
Qed.

Lemma collideTones_cases (s : Audio) (ct : float) (p : Player.t)
    (obs : list Obstacle.t) :
  collideTones s ct p obs
  = if existsb (checkCollision p) obs
    then playSound s ct 150 0.5 sawtooth
    else [].
Proof.
  induction obs as [|o rest IH]; [reflexivity|].
  cbn [collideTones existsb]. destruct (checkCollision p o); [reflexivity|exact IH].
Qed.

(** X13.  With sound enabled, a cue is scheduled exactly when the command
    changes the state: [jump] schedules its 400 Hz square tone if and only
    if it changes the state, the collision effect schedules its 150 Hz
    sawtooth tone if and only if it changes the state (sets GameOver), and
    never more than one tone however many obstacles collide.  With sound
    disabled neither schedules anything. *)
Theorem cues_follow_state_changes (s : Audio) (ct : float) (a : App) :
  (soundEnabled s = true -> soundEnabledRef s = true ->
   (jumpTones s ct a = [mkTone 400 square 0.1 0.01 ct (ct + 0.1)]
    \/ (jumpTones s ct a = [] /\ jump a = a))
   /\ (jumpTones s ct a = [] <-> jump a = a)
   /\ (collisionTones s ct a = [mkTone 150 sawtooth 0.1 0.01 ct (ct + 0.5)]
       \/ (collisionTones s ct a = [] /\ collisionEffect a = a))
   /\ (collisionTones s ct a = [] <-> collisionEffect a = a))
  /\ (soundEnabled s = false \/ soundEnabledRef s = false ->
      jumpTones s ct a = [] /\ collisionTones s ct a = []).
Proof.
  unfold jumpTones, collisionTones. rewrite collideTones_cases.
  rewrite (collisionEffect_eq a). unfold jump, playSound, jumpPlayer.
  rewrite guard_playing. unfold playing.
  destruct a as [[pl ov sc sp] [x y w h v j og k] obs last off fr].
  cbn [gameState player obstacles GameState.isPlaying GameState.isGameOver
       GameState.score GameState.speed Player.onGround lastObstacleRef
       groundOffsetRef animationFrameRef].
  split.
  - intros -> ->. cbn [negb orb].
    destruct pl, ov, og; cbn [negb andb orb];
      try destruct (existsb _ obs); cbn [andb orb];
      repeat split; auto; try (right; split; reflexivity);
      try (left; reflexivity); intros E; discriminate.
  - intros [-> | ->]; rewrite ?orb_true_r; cbn [negb orb];
      destruct pl, ov, og; cbn [negb andb orb];
      try destruct (existsb _ obs); split; reflexivity.
Qed.

Lemma cues_follow_state_changes_witness :
  soundEnabled initialAudio = true /\ soundEnabledRef initialAudio = true
  /\ length (filter (checkCollision (player crowdedState))
                    (obstacles crowdedState)) = 2%nat
  /\ collisionTones initialAudio 7 crowdedState
     = [mkTone 150 sawtooth 0.1 0.01 7 (7 + 0.5)]
  /\ (jumpTones initialAudio 7 crowdedState = [] <-> jump crowdedState = crowdedState).
Proof.
  split; [reflexivity|]. split; [reflexivity|]. split; [reflexivity|].
  split; [reflexivity|].
  exact (proj1 (proj2 (proj1 (cues_follow_state_changes initialAudio 7 crowdedState)
                         eq_refl eq_refl))).
Defined.
